(** * Functional options for an authenticated HTTP request (main.go)

    A shallow embedding of [NewOptReqParams], the [With...] option
    constructors and [CustomHTTPRequest], with the properties of the
    configuration builder and of the request executor.

    Pointers to [OptReqParams] are locations of a heap, so that the options
    mutate the draft in place as the Go closures do; a nil pointer is [None]
    and dereferencing it panics.  Calls that leave the package (the login
    API, [http.NewRequestWithContext], [http.Client.Do]) are recorded in a
    trace. *)

From stdpp Require Import gmap strings list fin_maps sorting.
From Stdlib Require Import Ascii String.

Local Open Scope string_scope.
Local Open Scope list_scope.

(** ** Data *)

(** An [io.Reader] value is known by its handle only: what the stream
    holds is outside the configuration. *)
Definition Reader := nat.

(** [type OptReqParams struct]; a nil [io.Reader] and a nil map are [None]. *)
Record OptReqParams := mkOptReqParams {
  httpMethod      : string;
  body            : option Reader;
  useInvalidToken : bool;
  queryParam      : option (gmap string string);
  acceptHeader    : string
}.

(** [&OptReqParams{}]: every field at its zero value. *)
Definition zeroOptReqParams : OptReqParams :=
  mkOptReqParams "" None false None "".

Definition set_httpMethod (v : string) (s : OptReqParams) : OptReqParams :=
  mkOptReqParams v (body s) (useInvalidToken s) (queryParam s) (acceptHeader s).
Definition set_body (v : option Reader) (s : OptReqParams) : OptReqParams :=
  mkOptReqParams (httpMethod s) v (useInvalidToken s) (queryParam s) (acceptHeader s).
Definition set_useInvalidToken (v : bool) (s : OptReqParams) : OptReqParams :=
  mkOptReqParams (httpMethod s) (body s) v (queryParam s) (acceptHeader s).
Definition set_queryParam (v : option (gmap string string)) (s : OptReqParams)
  : OptReqParams :=
  mkOptReqParams (httpMethod s) (body s) (useInvalidToken s) v (acceptHeader s).
Definition set_acceptHeader (v : string) (s : OptReqParams) : OptReqParams :=
  mkOptReqParams (httpMethod s) (body s) (useInvalidToken s) (queryParam s) v.

(** A Go [error] value: the dynamic type is either the one of [errors.New]
    or some other type, named; [Error] is its message. *)
Inductive error :=
| errorString (s : string)
| otherError (dyn : string) (s : string).

Definition Error (e : error) : string :=
  match e with errorString s => s | otherError _ s => s end.

Definition errors_New (msg : string) : error := errorString msg.

(** [context.Context] is an interface: [None] is the nil context. *)
Definition Context := option nat.

(** [url.Values] and [http.Header]: [map[string][]string]. *)
Abbreviation Values := (gmap string (list string)).
Abbreviation Header := (gmap string (list string)).

Record URL := mkURL {
  Scheme   : string;
  Host     : string;
  Path     : string;
  RawQuery : string;
  Fragment : string
}.

Definition set_RawQuery (q : string) (u : URL) : URL :=
  mkURL (Scheme u) (Host u) (Path u) q (Fragment u).

Record Request := mkRequest {
  req_ctx    : nat;
  req_Method : string;
  req_URL    : URL;
  req_Header : Header;
  req_Body   : option Reader
}.

Definition set_Header (h : Header) (r : Request) : Request :=
  mkRequest (req_ctx r) (req_Method r) (req_URL r) h (req_Body r).
Definition set_URL (u : URL) (r : Request) : Request :=
  mkRequest (req_ctx r) (req_Method r) u (req_Header r) (req_Body r).

Record Response := mkResponse {
  StatusCode : nat;
  resp_Header : Header;
  resp_Body : option Reader
}.

(** What [MyLoginAPI] hands back on success. *)
Record LoginResp := mkLoginResp { Token : string }.

(** ** The heap, the trace and the monad of the embedding *)

Definition loc := positive.

(** [*OptReqParams]: nil or the address of a struct. *)
Definition ptr := option loc.

Inductive Event :=
| EvLogin (ctx : Context) (email passwd : string)
| EvNewRequest (ctx : Context) (method url : string) (body : option Reader)
| EvDo (req : Request).

Record State := mkState {
  heap  : gmap loc OptReqParams;
  trace : list Event
}.

Inductive Result (A : Type) :=
| Done (a : A)
| Panic (msg : string).
Arguments Done {A} a.
Arguments Panic {A} msg.

Definition M (A : Type) : Type := State -> Result A * State.

Definition ret {A} (a : A) : M A := fun σ => (Done a, σ).

Definition bind {A B} (m : M A) (k : A -> M B) : M B :=
  fun σ => match m σ with
           | (Done a, σ') => k a σ'
           | (Panic msg, σ') => (Panic msg, σ')
           end.

Declare Scope go_scope.
Delimit Scope go_scope with go.
Notation "x <- m ;; k" := (bind m (fun x => k))
  (at level 100, m at next level, right associativity) : go_scope.
Notation "m ;;; k" := (bind m (fun _ => k))
  (at level 100, right associativity) : go_scope.
Local Open Scope go_scope.

Definition nil_deref : string :=
  "runtime error: invalid memory address or nil pointer dereference".

(** [&T{...}]: a fresh location. *)
Definition new (s : OptReqParams) : M ptr :=
  fun σ => let l := fresh (dom (heap σ)) in
           (Done (Some l), mkState (<[l := s]> (heap σ)) (trace σ)).

(** [p.f]: reading a field through the pointer. *)
Definition load {A} (p : ptr) (f : OptReqParams -> A) : M A :=
  fun σ => match p with
           | None => (Panic nil_deref, σ)
           | Some l => match heap σ !! l with
                       | Some s => (Done (f s), σ)
                       | None => (Panic nil_deref, σ)
                       end
           end.

(** [p.f = v]: writing a field through the pointer. *)
Definition store (p : ptr) (upd : OptReqParams -> OptReqParams) : M unit :=
  fun σ => match p with
           | None => (Panic nil_deref, σ)
           | Some l => match heap σ !! l with
                       | Some s => (Done tt, mkState (<[l := upd s]> (heap σ)) (trace σ))
                       | None => (Panic nil_deref, σ)
                       end
           end.

Definition emit (e : Event) : M unit :=
  fun σ => (Done tt, mkState (heap σ) (trace σ ++ [e])).

(** [for _, x := range l { f(x) }] *)
Fixpoint for_range {A} (l : list A) (f : A -> M unit) : M unit :=
  match l with
  | [] => ret tt
  | x :: l' => f x ;;; for_range l' f
  end.

(** ** The builder *)

(** [type OptReqParamsOption]: a func taking a pointer to [OptReqParams] *)
Definition OptReqParamsOption := ptr -> M unit.

Definition MethodGet : string := "GET".
Definition MethodPost : string := "POST".

Definition NewOptReqParams (options : list OptReqParamsOption) : M ptr :=
  params <- new zeroOptReqParams ;;
  store params (set_httpMethod MethodGet) ;;;
  store params (set_useInvalidToken false) ;;;
  store params (set_acceptHeader "application/json") ;;;
  for_range options (fun o => o params) ;;;
  ret params.

Definition WithMethod (httpMethod : string) : OptReqParamsOption :=
  fun s => store s (set_httpMethod httpMethod).

Definition WithBody (body : option Reader) : OptReqParamsOption :=
  let f := fun s => store s (set_body body) in
  f.

Definition WithUseInvalidToken (useInvalidToken : bool) : OptReqParamsOption :=
  fun s => store s (set_useInvalidToken useInvalidToken).

Definition WithQueryParam (queryParam : option (gmap string string))
  : OptReqParamsOption :=
  fun s => store s (set_queryParam queryParam).

Definition WithAcceptHeader (acceptHeader : string) : OptReqParamsOption :=
  fun s => store s (set_acceptHeader acceptHeader).

Definition WithTwoValues (acceptHeader httpMethod : string) : OptReqParamsOption :=
  fun s => store s (set_httpMethod httpMethod) ;;;
           store s (set_acceptHeader acceptHeader).

(** The pure-default configuration of the builder. *)
Definition defaultOptReqParams : OptReqParams :=
  mkOptReqParams MethodGet None false None "application/json".

(** *** Option sequences, as the caller writes them *)

(** The options the package exports, as syntax: a sequence of mutators is a
    list of these. *)
Inductive Mutator :=
| MWithMethod (httpMethod : string)
| MWithBody (body : option Reader)
| MWithUseInvalidToken (useInvalidToken : bool)
| MWithQueryParam (queryParam : option (gmap string string))
| MWithAcceptHeader (acceptHeader : string)
| MWithTwoValues (acceptHeader httpMethod : string).

Definition option_of (m : Mutator) : OptReqParamsOption :=
  match m with
  | MWithMethod v => WithMethod v
  | MWithBody v => WithBody v
  | MWithUseInvalidToken v => WithUseInvalidToken v
  | MWithQueryParam v => WithQueryParam v
  | MWithAcceptHeader v => WithAcceptHeader v
  | MWithTwoValues a v => WithTwoValues a v
  end.

(** What a mutator writes to each field, if it touches the field at all. *)
Definition writes_httpMethod (m : Mutator) : option string :=
  match m with
  | MWithMethod v => Some v
  | MWithTwoValues _ v => Some v
  | _ => None
  end.
Definition writes_body (m : Mutator) : option (option Reader) :=
  match m with MWithBody v => Some v | _ => None end.
Definition writes_useInvalidToken (m : Mutator) : option bool :=
  match m with MWithUseInvalidToken v => Some v | _ => None end.
Definition writes_queryParam (m : Mutator)
  : option (option (gmap string string)) :=
  match m with MWithQueryParam v => Some v | _ => None end.
Definition writes_acceptHeader (m : Mutator) : option string :=
  match m with
  | MWithAcceptHeader v => Some v
  | MWithTwoValues a _ => Some a
  | _ => None
  end.

(** The value written by the last mutator of the sequence that touches the
    field described by [w]; [None] when no mutator touches it. *)
Fixpoint last_write {A} (w : Mutator -> option A) (ms : list Mutator) : option A :=
  match ms with
  | [] => None
  | m :: ms' => match last_write w ms' with
                | Some a => Some a
                | None => w m
                end
  end.

(** The record in which every field holds what the last mutator touching it
    wrote, and what [base] holds where no mutator touches it. *)
Definition last_writer_over (base : OptReqParams) (ms : list Mutator)
  : OptReqParams :=
  mkOptReqParams
    (default (httpMethod base) (last_write writes_httpMethod ms))
    (default (body base) (last_write writes_body ms))
    (default (useInvalidToken base) (last_write writes_useInvalidToken ms))
    (default (queryParam base) (last_write writes_queryParam ms))
    (default (acceptHeader base) (last_write writes_acceptHeader ms)).

(** The last-writer-wins configuration of a sequence of mutators: over the
    defaults of the builder. *)
Definition last_writer_wins (ms : list Mutator) : OptReqParams :=
  last_writer_over defaultOptReqParams ms.

(** ** net/url: query escaping and [url.Values] *)

Definition isAlnum (c : ascii) : bool :=
  (("a" <=? c) && (c <=? "z") || ("A" <=? c) && (c <=? "Z")
   || ("0" <=? c) && (c <=? "9"))%char.

(** [shouldEscape(c, encodeQueryComponent)]: only the unreserved characters
    stay as they are. *)
Definition shouldEscape (c : ascii) : bool :=
  if isAlnum c then false
  else if bool_decide (c ∈ ["-"; "_"; "."; "~"]%char) then false
  else true.

Definition upperhex : string := "0123456789ABCDEF".

Definition hexdigit (n : nat) : ascii :=
  default "0"%char (String.get n upperhex).

(** [url.QueryEscape]: a space becomes [+], an escaped byte [%XX]. *)
Fixpoint QueryEscape (s : string) : string :=
  match s with
  | EmptyString => EmptyString
  | String c s' =>
      if Ascii.eqb c " " then String "+" (QueryEscape s')
      else if shouldEscape c then
        String "%" (String (hexdigit (nat_of_ascii c / 16))
                     (String (hexdigit (nat_of_ascii c mod 16)) (QueryEscape s')))
      else String c (QueryEscape s')
  end.

(** [func (v Values) Add(key, value string)] *)
Definition Values_Add (key value : string) (v : Values) : Values :=
  <[key := default [] (v !! key) ++ [value]]> v.

(** One pair written to the buffer of [Encode]. *)
Definition write_pair (keyEscaped : string) (buf val : string) : string :=
  (if bool_decide (0 < String.length buf) then buf +:+ "&" else buf)
    +:+ keyEscaped +:+ "=" +:+ QueryEscape val.

(** [func (v Values) Encode() string]: keys sorted ([String.le] compares
    byte by byte, as Go does), the values of a key in their order. *)
Definition Values_Encode (v : Values) : string :=
  if bool_decide (size v = 0) then ""
  else
    let keys := merge_sort String.le ((map_to_list v).*1) in
    foldl (fun buf k =>
             let vs := default [] (v !! k) in
             let keyEscaped := QueryEscape k in
             foldl (write_pair keyEscaped) buf vs)
          "" keys.

(** ** net/http: headers and request construction *)

(** [httpguts.IsTokenRune] on a byte; [validHeaderFieldByte] is the same
    table. *)
Definition isToken (c : ascii) : bool :=
  isAlnum c
  || bool_decide (c ∈ ["!"; "#"; "$"; "%"; "&"; "'"; "*"; "+"; "-"; ".";
                       "^"; "_"; "`"; "|"; "~"]%char).

Definition string_forall (f : ascii -> bool) (s : string) : bool :=
  forallb f (list_ascii_of_string s).

Definition toUpper (c : ascii) : ascii :=
  if (("a" <=? c) && (c <=? "z"))%char
  then ascii_of_nat (nat_of_ascii c - 32) else c.
Definition toLower (c : ascii) : ascii :=
  if (("A" <=? c) && (c <=? "Z"))%char
  then ascii_of_nat (nat_of_ascii c + 32) else c.

Fixpoint canonicalize (upper : bool) (s : string) : string :=
  match s with
  | EmptyString => EmptyString
  | String c s' =>
      let c' := if upper then toUpper c else toLower c in
      String c' (canonicalize (Ascii.eqb c' "-") s')
  end.

(** [textproto.CanonicalMIMEHeaderKey]: a key with a byte that is not a
    token byte is left as it is. *)
Definition CanonicalMIMEHeaderKey (s : string) : string :=
  if string_forall isToken s then canonicalize true s else s.

(** [func (h Header) Add(key, value string)] *)
Definition Header_Add (key value : string) (h : Header) : Header :=
  let key := CanonicalMIMEHeaderKey key in
  <[key := default [] (h !! key) ++ [value]]> h.

Definition validMethod (method : string) : bool :=
  bool_decide (0 < String.length method) && string_forall isToken method.

(** The parts of the Go library taken as given: parsing of URLs and of
    query strings, and quoting. *)
Class NetLib := {
  url_Parse : string -> URL + error;
  (** [URL.Query()]: [ParseQuery(u.RawQuery)] with malformed pairs dropped *)
  url_ParseQuery : string -> Values;
  removeEmptyPort : string -> string;
  strconv_Quote : string -> string
}.

(** The collaborators of the executor and the order in which [range] walks
    a map: any order over the keys of the map. *)
Class World := {
  MyLoginAPI : Context -> string -> string -> LoginResp + error;
  client_Do : Request -> Response + error;
  range_order : gmap string string -> list string;
  range_order_perm : forall m, range_order m ≡ₚ (map_to_list m).*1
}.

Definition set_Host (h : string) (u : URL) : URL :=
  mkURL (Scheme u) h (Path u) (RawQuery u) (Fragment u).

(** [http.NewRequestWithContext] *)
Definition NewRequestWithContext `{NetLib} (ctx : Context)
    (method url : string) (body : option Reader) : Request + error :=
  let method := if String.eqb method "" then "GET" else method in
  if negb (validMethod method) then
    inr (errors_New ("net/http: invalid method " +:+ strconv_Quote method))
  else
    match ctx with
    | None => inr (errors_New "net/http: nil Context")
    | Some c =>
        match url_Parse url with
        | inr err => inr err
        | inl u =>
            let u := set_Host (removeEmptyPort (Host u)) u in
            inl (mkRequest c method u ∅ body)
        end
    end.

(** ** The executor *)

(** [m[k]] on a map that may be nil: the zero value when the key is absent. *)
Definition map_index (m : option (gmap string string)) (k : string) : string :=
  default "" (m ≫= (fun m => m !! k)).

(** A loop that threads a local variable. *)
Fixpoint for_fold {A B} (l : list A) (f : B -> A -> M B) (b : B) : M B :=
  match l with
  | [] => ret b
  | x :: l' => b' <- f b x ;; for_fold l' f b'
  end.

Definition login_failed : string :=
  "error in login with user provided credentials ".

(** [CustomHTTPRequest] from "create http req" on: what runs once
    [authString] is set. *)
Definition send_request `{NetLib} `{World} (ctx : Context) (url : string)
    (p : ptr) (authString : string) : M (option Response * option error) :=
  method <- load p httpMethod ;;
  b <- load p body ;;
  emit (EvNewRequest ctx method url b) ;;;
  match NewRequestWithContext ctx method url b with
  | inr err => ret (None, Some err)
  | inl req =>
      accept <- load p acceptHeader ;;
      let req := set_Header (Header_Add "Accept" accept (req_Header req)) req in
      let req := set_Header (Header_Add "Authorization" authString (req_Header req)) req in
      let req := set_Header (Header_Add "Content-Type" "application/json" (req_Header req)) req in
      qp <- load p queryParam ;;
      req <- match qp with
             | Some m =>
                 let q := url_ParseQuery (RawQuery (req_URL req)) in
                 q <- for_fold (range_order m)
                        (fun q k => v <- load p (fun s => map_index (queryParam s) k) ;;
                                    ret (Values_Add k v q)) q ;;
                 ret (set_URL (set_RawQuery (Values_Encode q) (req_URL req)) req)
             | None => ret req
             end ;;
      emit (EvDo req) ;;;
      match client_Do req with
      | inr err => ret (None, Some err)
      | inl res => ret (Some res, None)
      end
  end.

Definition CustomHTTPRequest `{NetLib} `{World} (ctx : Context)
    (url email passwd : string) (p : ptr)
  : M (option Response * option error) :=
  useInvalid <- load p useInvalidToken ;;
  if useInvalid : bool then
    send_request ctx url p ("Bearer " +:+ "Invalid Token")
  else
    emit (EvLogin ctx email passwd) ;;;
    match MyLoginAPI ctx email passwd with
    | inr err => ret (None, Some (errors_New (login_failed +:+ Error err)))
    | inl resp => send_request ctx url p ("Bearer " +:+ Token resp)
    end.

(** *** A concrete world, to run the executor *)

Definition demo_url : URL := mkURL "https" "api.example.com" "/v1/users" "" "".
Definition down_url : URL := mkURL "https" "down.example.com" "/" "" "".

#[local] Instance demo_lib : NetLib := {|
  url_Parse u :=
    if String.eqb u "%" then inr (otherError "*url.Error" "parse: invalid URL escape")
    else if String.eqb u "https://down.example.com/" then inl down_url
    else inl demo_url;
  url_ParseQuery _ := ∅;
  removeEmptyPort h := h;
  strconv_Quote s := s
|}.

#[local] Program Instance demo_world : World := {|
  MyLoginAPI _ email _ :=
    if String.eqb email "nobody" then inr (otherError "*api.Error" "401 unauthorized")
    else inl (mkLoginResp "tok123");
  client_Do r :=
    if String.eqb (Host (req_URL r)) "down.example.com"
    then inr (otherError "*url.Error" "dial tcp: connection refused")
    else inl (mkResponse 200 ∅ None);
  range_order m := (map_to_list m).*1
|}.
Next Obligation. reflexivity. Qed.

(** The same world, with maps walked in the opposite order. *)
#[local] Program Instance demo_world_rev : World := {|
  MyLoginAPI := @MyLoginAPI demo_world;
  client_Do := @client_Do demo_world;
  range_order m := reverse ((map_to_list m).*1)
|}.
Next Obligation. intros m. apply reverse_Permutation. Qed.

Definition demo_query : gmap string string :=
  <["name" := "xyz"]> (<["age" := "10"]> ∅).

Definition empty_state : State := mkState ∅ [].

(** The options of the second call of [main], and two states to run the
    executor in: after building that configuration, and after building one
    that asks for the invalid token. *)
Definition demo_options : list Mutator :=
  [MWithMethod MethodPost; MWithBody None; MWithQueryParam (Some demo_query)].
Definition demo_cfg : OptReqParams :=
  mkOptReqParams "POST" None false (Some demo_query) "application/json".
Definition demo_state : State :=
  (NewOptReqParams (option_of <$> demo_options) empty_state).2.
Definition invalid_cfg : OptReqParams :=
  mkOptReqParams "GET" None true None "application/json".
Definition invalid_state : State :=
  (NewOptReqParams [WithUseInvalidToken true] empty_state).2.
Definition demo_loc : loc := 1%positive.


(** *** The shape of an encoded query, to state what [Encode] produces *)

Definition encode_pair (kv : string * string) : string :=
  QueryEscape kv.1 +:+ "=" +:+ QueryEscape kv.2.

Fixpoint join_amp (l : list string) : string :=
  match l with
  | [] => ""
  | [x] => x
  | x :: l' => x +:+ "&" +:+ join_amp l'
  end.

(** The key/value pairs of [v] over the keys [ks], in the order of [ks]. *)
Definition pairs_over (v : Values) (ks : list string) : list (string * string) :=
  k ← ks; pair k <$> default [] (v !! k).

(** The pairs of [v], keys in increasing order. *)
Definition Values_pairs (v : Values) : list (string * string) :=
  pairs_over v (merge_sort String.le ((map_to_list v).*1)).

(** How often the pair [kv] occurs in [l]. *)
Definition occurrences (kv : string * string) (l : list (string * string)) : nat :=
  count_occ (fun x y => decide (x = y)) l kv.

(** The events of token resolution: one login call unless the invalid token
    is asked for. *)
Definition login_events (cfg : OptReqParams) (ctx : Context)
    (email passwd : string) : list Event :=
  if useInvalidToken cfg then [] else [EvLogin ctx email passwd].

(** Token resolution succeeds and gives the Authorization value [auth]. *)
Definition token_resolved `{World} (cfg : OptReqParams) (ctx : Context)
    (email passwd : string) (auth : string) : Prop :=
  if useInvalidToken cfg then auth = "Bearer Invalid Token"
  else exists resp, MyLoginAPI ctx email passwd = inl resp
                    /\ auth = "Bearer " +:+ Token resp.

(** ** The rest of the program: [main], and the parser behind [URL.Query] *)

(** [context.Background()]: a context that is not nil. *)
Definition Background : Context := Some 0.

(** [func main()]: both results and both errors are dropped. *)
Definition main `{NetLib} `{World} : M unit :=
  _ <- CustomHTTPRequest Background "some_url" "email_addr" "email_passwd" None ;;
  let q := (∅ : gmap string string) in
  let q := <["name" := "xyz"]> q in
  let q := <["age" := "10"]> q in
  p <- NewOptReqParams [WithMethod MethodPost; WithBody None; WithQueryParam (Some q)] ;;
  _ <- CustomHTTPRequest Background "some_url" "email_addr" "email_passwd" p ;;
  ret tt.

(** The request [CustomHTTPRequest] hands to [client.Do], from the request
    [http.NewRequestWithContext] built: the three headers added, and the
    query string rewritten when the map of query parameters is not nil. *)
Definition sent_request `{NetLib} `{World} (cfg : OptReqParams)
    (authString : string) (req0 : Request) : Request :=
  let hd := Header_Add "Content-Type" "application/json"
              (Header_Add "Authorization" authString
                 (Header_Add "Accept" (acceptHeader cfg) (req_Header req0))) in
  let req1 := set_Header hd req0 in
  match queryParam cfg with
  | Some m =>
      set_URL (set_RawQuery
                 (Values_Encode
                    (foldl (fun q k => Values_Add k (map_index (Some m) k) q)
                       (url_ParseQuery (RawQuery (req_URL req0))) (range_order m)))
                 (req_URL req0)) req1
  | None => req1
  end.

(** The fields of [OptReqParams], to say which ones an option writes. *)
Inductive Field :=
| FhttpMethod | Fbody | FuseInvalidToken | FqueryParam | FacceptHeader.

Definition isSome {A} (o : option A) : bool :=
  match o with Some _ => true | None => false end.

Definition touches (m : Mutator) (f : Field) : bool :=
  match f with
  | FhttpMethod => isSome (writes_httpMethod m)
  | Fbody => isSome (writes_body m)
  | FuseInvalidToken => isSome (writes_useInvalidToken m)
  | FqueryParam => isSome (writes_queryParam m)
  | FacceptHeader => isSome (writes_acceptHeader m)
  end.

Definition is_EvLogin (e : Event) : bool :=
  match e with EvLogin _ _ _ => true | _ => false end.
Definition is_EvDo (e : Event) : bool :=
  match e with EvDo _ => true | _ => false end.

(** The bytes [QueryEscape] lets through or writes. *)
Definition escaped_byte (c : ascii) : bool :=
  isAlnum c || bool_decide (c ∈ ["-"; "_"; "."; "~"; "%"; "+"]%char).

(** The bytes of an encoded query: those and the two separators. *)
Definition query_byte (c : ascii) : bool :=
  escaped_byte c || Ascii.eqb c "&" || Ascii.eqb c "=".

Definition ishex (c : ascii) : bool :=
  (("0" <=? c) && (c <=? "9") || ("a" <=? c) && (c <=? "f")
   || ("A" <=? c) && (c <=? "F"))%char.

Definition unhex (c : ascii) : nat :=
  if (("0" <=? c) && (c <=? "9"))%char then nat_of_ascii c - 48
  else if (("a" <=? c) && (c <=? "f"))%char then nat_of_ascii c - 97 + 10
  else if (("A" <=? c) && (c <=? "F"))%char then nat_of_ascii c - 65 + 10
  else 0.

(** [url.QueryUnescape]: [None] is the [EscapeError] of a [%] that is not
    followed by two hex digits. *)
Fixpoint QueryUnescape (s : string) : option string :=
  match s with
  | EmptyString => Some EmptyString
  | String c s' =>
      if Ascii.eqb c "%" then
        match s' with
        | String a (String b s'') =>
            if ishex a && ishex b then
              String (ascii_of_nat (unhex a * 16 + unhex b)) <$> QueryUnescape s''
            else None
        | _ => None
        end
      else if Ascii.eqb c "+" then String " " <$> QueryUnescape s'
      else String c <$> QueryUnescape s'
  end.

(** [strings.Cut] at a one-byte separator. *)
Fixpoint Cut (sep : ascii) (s : string) : string * string * bool :=
  match s with
  | EmptyString => (EmptyString, EmptyString, false)
  | String c s' =>
      if Ascii.eqb c sep then (EmptyString, s', true)
      else let '(before, after, found) := Cut sep s' in
           (String c before, after, found)
  end.

(** [strings.Contains] for a one-byte needle. *)
Definition Contains (s : string) (c : ascii) : bool :=
  existsb (Ascii.eqb c) (list_ascii_of_string s).

(** The loop of [url.parseQuery], [fuel] bounding its rounds; the error it
    also returns is the one [URL.Query] drops. *)
Fixpoint parseQuery (fuel : nat) (m : Values) (query : string) : Values :=
  match fuel with
  | 0 => m
  | S fuel =>
      if String.eqb query "" then m
      else
        let '(key, query, _) := Cut "&" query in
        if Contains key ";" then parseQuery fuel m query
        else if String.eqb key "" then parseQuery fuel m query
        else
          let '(key, value, _) := Cut "=" key in
          match QueryUnescape key with
          | None => parseQuery fuel m query
          | Some key =>
              match QueryUnescape value with
              | None => parseQuery fuel m query
              | Some value => parseQuery fuel (Values_Add key value m) query
              end
          end
  end.

(** [strings.Count] for a one-byte needle. *)
Definition Count (s : string) (c : ascii) : nat :=
  List.length (filter (fun x => x = c) (list_ascii_of_string s)).

(** [defaultMaxParams]: the parser refuses a query of more parameters. *)
Definition defaultMaxParams : N := 10000%N.

(** [urlParamsWithinMax], with the [urlmaxqueryparams] setting left unset. *)
Definition urlParamsWithinMax (params : nat) : bool :=
  (N.of_nat params <=? defaultMaxParams)%N.

(** [url.ParseQuery] with its error dropped. A query of too many
    parameters (one more than it has ampersands) is refused before the loop
    and leaves the map empty; otherwise every round of the loop shortens
    the query, so its length is fuel enough. *)
Definition ParseQuery (query : string) : Values :=
  if urlParamsWithinMax (Count query "&" + 1)
  then parseQuery (String.length query) ∅ query
  else ∅.

(** A library whose [URL.Query] is that parser, and whose [url.Parse] knows
    one URL with a query. *)
Definition query_url : URL := mkURL "https" "api.example.com" "/v1/users" "b=2&a=1" "".

#[local] Instance go_lib : NetLib := {|
  url_Parse u :=
    if String.eqb u "https://api.example.com/v1/users?b=2&a=1" then inl query_url
    else @url_Parse demo_lib u;
  url_ParseQuery := ParseQuery;
  removeEmptyPort h := h;
  strconv_Quote s := String (ascii_of_nat 34) s +:+ String (ascii_of_nat 34) ""
|}.

Definition empty_query_cfg : OptReqParams :=
  mkOptReqParams "GET" None true (Some ∅) "application/json".
Definition empty_query_state : State :=
  (NewOptReqParams [WithUseInvalidToken true; WithQueryParam (Some ∅)] empty_state).2.
Definition bad_method_cfg : OptReqParams :=
  mkOptReqParams "GE T" None false None "application/json".
Definition bad_method_state : State :=
  (NewOptReqParams [WithMethod "GE T"] empty_state).2.

(** ** The builder: defaults and last-writer-wins *)

Ltac run_go :=
  repeat (unfold bind, ret, load, store, emit, new; simpl;
          rewrite ?lookup_insert_eq, ?insert_insert_eq; simpl).

Lemma State_eta (σ : State) : mkState (heap σ) (trace σ) = σ.
Proof. by destruct σ. Qed.

Lemma fresh_loc_free (σ : State) : heap σ !! fresh (dom (heap σ)) = None.
Proof. apply not_elem_of_dom, is_fresh. Qed.

(** One exported option run on a live draft updates the draft in place. *)
Lemma option_of_run (m : Mutator) l s h t :
  h !! l = Some s ->
  option_of m (Some l) (mkState h t)
  = (Done tt, mkState (<[l := last_writer_over s [m]]> h) t).
Proof.
  intros Hl. destruct m, s; unfold option_of, WithMethod, WithBody,
    WithUseInvalidToken, WithQueryParam, WithAcceptHeader, WithTwoValues;
    run_go; rewrite Hl; run_go; reflexivity.
Qed.

Lemma last_writer_over_cons (m : Mutator) ms s :
  last_writer_over (last_writer_over s [m]) ms = last_writer_over s (m :: ms).
Proof.
  unfold last_writer_over; simpl.
  destruct (last_write writes_httpMethod ms), (last_write writes_body ms),
    (last_write writes_useInvalidToken ms), (last_write writes_queryParam ms),
    (last_write writes_acceptHeader ms); destruct m; reflexivity.
Qed.

Lemma last_writer_over_nil s : last_writer_over s [] = s.
Proof. by destruct s. Qed.

Lemma options_run (ms : list Mutator) l s h t :
  h !! l = Some s ->
  for_range (option_of <$> ms) (fun o => o (Some l)) (mkState h t)
  = (Done tt, mkState (<[l := last_writer_over s ms]> h) t).
Proof.
  revert s h. induction ms as [|m ms IH]; intros s h Hl; simpl.
  - rewrite last_writer_over_nil, insert_id by done. reflexivity.
  - unfold bind. rewrite (option_of_run m l s h t Hl).
    rewrite (IH (last_writer_over s [m])) by apply lookup_insert_eq.
    by rewrite insert_insert_eq, last_writer_over_cons.
Qed.

(** The builder without options, run: a fresh draft that holds the
    defaults. *)
Lemma builder_no_options (σ : State) :
  NewOptReqParams [] σ
  = (Done (Some (fresh (dom (heap σ)))),
     mkState (<[fresh (dom (heap σ)) := defaultOptReqParams]> (heap σ)) (trace σ)).
Proof. unfold NewOptReqParams. run_go. reflexivity. Qed.

(** C8: with no option the builder returns a fresh draft that holds the
    defaults: method GET, no invalid token, Accept application/json, and
    neither body nor query parameters. *)
Theorem NewOptReqParams_defaults (σ : State) :
  exists l,
    heap σ !! l = None
    /\ NewOptReqParams [] σ
       = (Done (Some l),
          mkState (<[l := mkOptReqParams "GET" None false None "application/json"]>
                     (heap σ)) (trace σ)).
Proof.
  exists (fresh (dom (heap σ))). split; [apply fresh_loc_free|].
  apply builder_no_options.
Qed.

(** C4: the builder starts from the defaults and runs the options in the
    order given; in the configuration it returns every field holds what the
    last option touching that field wrote, or the default when no option
    touches it. *)
Theorem NewOptReqParams_last_writer_wins (ms : list Mutator) (σ : State) :
  exists l,
    heap σ !! l = None
    /\ NewOptReqParams (option_of <$> ms) σ
       = (Done (Some l),
          mkState (<[l := last_writer_wins ms]> (heap σ)) (trace σ)).
Proof.
  exists (fresh (dom (heap σ))). split; [apply fresh_loc_free|].
  unfold NewOptReqParams. run_go.
  rewrite (options_run ms _ defaultOptReqParams) by apply lookup_insert_eq.
  by rewrite insert_insert_eq.
Qed.

(** ** The executor: the three ways through it *)

Section Executor.
Context `{NetLib} `{World}.
Variables (ctx : Context) (url email passwd : string).
Variables (l : loc) (σ : State) (cfg : OptReqParams).
Hypothesis Hcfg : heap σ !! l = Some cfg.

(** The loop over the query parameters reads the configuration and adds
    to the local [url.Values] only. *)
Lemma query_loop (ks : list string) (q0 : Values) t :
  for_fold ks
    (fun q k => v <- load (Some l) (fun s => map_index (queryParam s) k) ;;
                ret (Values_Add k v q)) q0 (mkState (heap σ) t)
  = (Done (foldl (fun q k => Values_Add k (map_index (queryParam cfg) k) q) q0 ks),
     mkState (heap σ) t).
Proof using Hcfg.
  revert q0. induction ks as [|k ks IH]; intros q0; simpl; [done|].
  unfold bind at 1. unfold bind, load, ret; simpl. rewrite Hcfg. apply IH.
Qed.

Lemma NewRequestWithContext_inv method b req0 :
  NewRequestWithContext ctx method url b = inl req0 ->
  req_Header req0 = ∅ /\ req_Body req0 = b
  /\ req_Method req0 = (if String.eqb method "" then "GET" else method).
Proof.
  unfold NewRequestWithContext.
  destruct (negb _); [done|]. destruct ctx; [|done].
  destruct (url_Parse url); [|done]. intros [= <-]. done.
Qed.

Lemma send_request_fails σ1 authString err :
  heap σ1 = heap σ ->
  NewRequestWithContext ctx (httpMethod cfg) url (body cfg) = inr err ->
  send_request ctx url (Some l) authString σ1
  = (Done (None, Some err),
     mkState (heap σ)
       (trace σ1 ++ [EvNewRequest ctx (httpMethod cfg) url (body cfg)])).
Proof using Hcfg.
  destruct σ1 as [h1 t]. simpl. intros -> Hnew. unfold send_request.
  unfold bind at 1. unfold load at 1; simpl. rewrite Hcfg.
  unfold bind at 1. unfold load at 1; simpl. rewrite Hcfg.
  unfold bind at 1. unfold emit at 1; simpl. by rewrite Hnew.
Qed.

(** Login fails: the error is wrapped and nothing else happens. *)
Lemma exec_login_fails err :
  useInvalidToken cfg = false ->
  MyLoginAPI ctx email passwd = inr err ->
  CustomHTTPRequest ctx url email passwd (Some l) σ
  = (Done (None, Some (errors_New (login_failed +:+ Error err))),
     mkState (heap σ) (trace σ ++ [EvLogin ctx email passwd])).
Proof using Hcfg.
  intros Hu Hlogin. unfold CustomHTTPRequest.
  unfold bind, load, ret, emit; simpl. rewrite Hcfg, Hu, Hlogin. done.
Qed.

(** The token is there but the request cannot be built: the error of
    [http.NewRequestWithContext] is what the caller gets. *)
Lemma exec_newrequest_fails auth err :
  token_resolved cfg ctx email passwd auth ->
  NewRequestWithContext ctx (httpMethod cfg) url (body cfg) = inr err ->
  CustomHTTPRequest ctx url email passwd (Some l) σ
  = (Done (None, Some err),
     mkState (heap σ)
       (trace σ ++ login_events cfg ctx email passwd
          ++ [EvNewRequest ctx (httpMethod cfg) url (body cfg)])).
Proof using Hcfg.
  intros Hauth Hnew. unfold CustomHTTPRequest, token_resolved, login_events in *.
  unfold bind at 1. unfold load at 1. rewrite Hcfg.
  destruct (useInvalidToken cfg).
  - by rewrite (send_request_fails _ _ err).
  - destruct Hauth as (resp & -> & _).
    unfold bind at 1. unfold emit at 1.
    rewrite (send_request_fails _ _ err) by done. simpl. by rewrite <- app_assoc.
Qed.

Lemma foldl_Values_Add_lookup (f : string -> string) ks (q0 : Values) k' :
  NoDup ks ->
  foldl (fun q k => Values_Add k (f k) q) q0 ks !! k'
  = if decide (k' ∈ ks) then Some (default [] (q0 !! k') ++ [f k'])
    else q0 !! k'.
Proof.
  intros Hnd. revert q0. induction Hnd as [|k ks Hk Hnd IH]; intros q0.
  - done.
  - cbn [foldl]. rewrite IH. unfold Values_Add.
    destruct (decide (k' = k)) as [->|Hne].
    + rewrite lookup_insert_eq.
      rewrite decide_False by done.
      by rewrite decide_True by (by apply elem_of_cons; left).
    + rewrite lookup_insert_ne by done.
      destruct (decide (k' ∈ ks)).
      * by rewrite decide_True by (by apply elem_of_cons; right).
      * by rewrite decide_False by (by intros [?|?]%elem_of_cons).
Qed.

(** What the loop leaves in the local [url.Values], whatever the order in
    which [range] walked the map. *)
Lemma range_Values_Add_lookup (m : gmap string string) (q0 : Values) k :
  foldl (fun q k => Values_Add k (map_index (Some m) k) q) q0 (range_order m) !! k
  = match m !! k with
    | Some v => Some (default [] (q0 !! k) ++ [v])
    | None => q0 !! k
    end.
Proof.
  rewrite foldl_Values_Add_lookup.
  2:{ rewrite range_order_perm. apply NoDup_fst_map_to_list. }
  destruct (m !! k) as [v|] eqn:Hk.
  - rewrite decide_True.
    + unfold map_index; simpl. by rewrite Hk.
    + rewrite range_order_perm. apply list_elem_of_fmap.
      exists (k, v). split; [done|]. by apply elem_of_map_to_list.
  - rewrite decide_False; [done|].
    rewrite range_order_perm. intros ([k0 v] & -> & Hin)%list_elem_of_fmap.
    apply elem_of_map_to_list in Hin. simpl in *. congruence.
Qed.

(** The token is there and the request is built: it gets its three
    headers and its query string, and is sent once. *)
Lemma exec_issue auth req0 :
  token_resolved cfg ctx email passwd auth ->
  NewRequestWithContext ctx (httpMethod cfg) url (body cfg) = inl req0 ->
  exists req,
    CustomHTTPRequest ctx url email passwd (Some l) σ
    = (Done (match client_Do req with
             | inr err => (None, Some err)
             | inl res => (Some res, None)
             end),
       mkState (heap σ)
         (trace σ ++ login_events cfg ctx email passwd
            ++ [EvNewRequest ctx (httpMethod cfg) url (body cfg); EvDo req]))
    /\ req_Header req
       = <["Accept" := [acceptHeader cfg]]>
           (<["Authorization" := [auth]]>
              (<["Content-Type" := ["application/json"]]> ∅))
    /\ req_Method req = req_Method req0
    /\ req_Body req = req_Body req0
    /\ match queryParam cfg with
       | None => req_URL req = req_URL req0
       | Some m =>
           exists q : Values,
             (forall k, q !! k
                        = match m !! k with
                          | Some v =>
                              Some (default [] (url_ParseQuery (RawQuery (req_URL req0)) !! k)
                                      ++ [v])
                          | None => url_ParseQuery (RawQuery (req_URL req0)) !! k
                          end)
             /\ req_URL req = set_RawQuery (Values_Encode q) (req_URL req0)
       end.
Proof using Hcfg.
  intros Hauth Hnew.
  destruct (NewRequestWithContext_inv _ _ _ Hnew) as (Hhd & _ & _).
  assert (Hheaders : forall a,
    Header_Add "Content-Type" "application/json"
      (Header_Add "Authorization" auth (Header_Add "Accept" a ∅))
    = <["Accept" := [a]]>
        (<["Authorization" := [auth]]>
           (<["Content-Type" := ["application/json"]]> (∅ : Header)))).
  { intros a. unfold Header_Add.
    change (CanonicalMIMEHeaderKey "Accept") with "Accept".
    change (CanonicalMIMEHeaderKey "Authorization") with "Authorization".
    change (CanonicalMIMEHeaderKey "Content-Type") with "Content-Type".
    rewrite lookup_empty; simpl.
    rewrite (lookup_insert_ne _ "Accept" "Authorization") by done.
    rewrite lookup_empty; simpl.
    rewrite (lookup_insert_ne _ "Authorization" "Content-Type") by done.
    rewrite (lookup_insert_ne _ "Accept" "Content-Type") by done.
    rewrite lookup_empty; simpl.
    rewrite (insert_insert_ne _ "Content-Type" "Authorization") by done.
    rewrite (insert_insert_ne _ "Content-Type" "Accept") by done.
    by rewrite (insert_insert_ne _ "Authorization" "Accept") by done. }
  assert (Hrun : forall σ1 authString, heap σ1 = heap σ ->
    send_request ctx url (Some l) authString σ1
    = let hd := Header_Add "Content-Type" "application/json"
                  (Header_Add "Authorization" authString
                     (Header_Add "Accept" (acceptHeader cfg) ∅)) in
      let req1 := set_Header hd req0 in
      let req :=
        match queryParam cfg with
        | Some m =>
            set_URL (set_RawQuery
                       (Values_Encode
                          (foldl (fun q k => Values_Add k (map_index (queryParam cfg) k) q)
                             (url_ParseQuery (RawQuery (req_URL req0))) (range_order m)))
                       (req_URL req0)) req1
        | None => req1
        end in
      (Done (match client_Do req with
             | inr err => (None, Some err)
             | inl res => (Some res, None)
             end),
       mkState (heap σ)
         (trace σ1 ++ [EvNewRequest ctx (httpMethod cfg) url (body cfg); EvDo req]))).
  { intros [h1 t] authString Hh. simpl in Hh. subst h1.
    unfold send_request. unfold bind at 1. unfold load at 1; simpl. rewrite Hcfg.
    unfold bind at 1. unfold load at 1; simpl. rewrite Hcfg.
    unfold bind at 1. unfold emit at 1; simpl. rewrite Hnew.
    unfold bind at 1. unfold load at 1; simpl. rewrite Hcfg.
    unfold bind at 1. unfold load at 1; simpl. rewrite Hcfg, Hhd.
    destruct (queryParam cfg) as [m|] eqn:Hqp.
    - unfold bind at 1. unfold bind at 1. rewrite query_loop, Hqp.
      unfold ret at 1. unfold bind, emit, set_URL, set_Header; simpl.
      rewrite <- app_assoc; simpl.
      by destruct (client_Do _).
    - unfold bind at 1. unfold ret at 1.
      unfold bind, emit, set_URL, set_Header; simpl.
      rewrite <- app_assoc; simpl.
      by destruct (client_Do _). }
  eexists. split; [|split; [|split; [|split]]].
  - unfold CustomHTTPRequest, token_resolved, login_events in *.
    unfold bind at 1. unfold load at 1; simpl. rewrite Hcfg.
    destruct (useInvalidToken cfg); simpl.
    + change ("Bearer " +:+ "Invalid Token") with "Bearer Invalid Token".
      rewrite <- Hauth, Hrun by done. reflexivity.
    + destruct Hauth as (resp & Hlogin & Hauth). rewrite Hlogin.
      unfold bind at 1. unfold emit at 1.
      rewrite <- Hauth, Hrun by done. simpl. rewrite <- app_assoc. reflexivity.
  - destruct (queryParam cfg); simpl; apply Hheaders.
  - by destruct (queryParam cfg).
  - by destruct (queryParam cfg).
  - destruct (queryParam cfg) as [m|] eqn:Hqp; simpl; [|done].
    eexists. split; [|reflexivity].
    intros k. apply range_Values_Add_lookup.
Qed.
End Executor.

(** ** What [Encode] writes *)

Lemma String_app_cons a s t : String a s +:+ t = String a (s +:+ t).
Proof. reflexivity. Qed.

Lemma String_app_assoc (a b c : string) : (a +:+ b) +:+ c = a +:+ b +:+ c.
Proof. induction a as [|x a IH]; [done|]. by rewrite !String_app_cons, IH. Qed.

Lemma String_app_length (a b : string) :
  String.length (a +:+ b) = String.length a + String.length b.
Proof. induction a as [|x a IH]; [done|]. rewrite String_app_cons. simpl. by rewrite IH. Qed.

Lemma write_pair_encode k buf val :
  write_pair (QueryEscape k) buf val
  = (if bool_decide (0 < String.length buf) then buf +:+ "&" else buf)
      +:+ encode_pair (k, val).
Proof. reflexivity. Qed.

Lemma write_pair_nonempty k buf val :
  0 < String.length (write_pair (QueryEscape k) buf val).
Proof.
  rewrite write_pair_encode. unfold encode_pair.
  rewrite !String_app_length. simpl. lia.
Qed.

(** The buffer after a run of pairs: the pairs joined by [&], after what
    the buffer held. *)
Lemma write_pairs_join (ps : list (string * string)) (buf : string) :
  foldl (fun buf kv => write_pair (QueryEscape kv.1) buf kv.2) buf ps
  = match ps with
    | [] => buf
    | _ => (if bool_decide (0 < String.length buf) then buf +:+ "&" else buf)
             +:+ join_amp (encode_pair <$> ps)
    end.
Proof.
  revert buf. induction ps as [|[k x] ps IH]; intros buf; [done|].
  cbn [foldl fst snd]. rewrite IH. destruct ps as [|p ps]; [done|].
  rewrite bool_decide_true by apply write_pair_nonempty.
  rewrite write_pair_encode.
  change (join_amp (encode_pair <$> (k, x) :: p :: ps))
    with (encode_pair (k, x) +:+ "&" +:+ join_amp (encode_pair <$> p :: ps)).
  by rewrite !String_app_assoc.
Qed.

Lemma write_values_pairs k (vs : list string) buf :
  foldl (write_pair (QueryEscape k)) buf vs
  = foldl (fun buf kv => write_pair (QueryEscape kv.1) buf kv.2) buf (pair k <$> vs).
Proof. revert buf. induction vs as [|x vs IH]; intros buf; [done|]. apply IH. Qed.

Lemma write_keys_pairs (v : Values) (ks : list string) buf :
  foldl (fun buf k => foldl (write_pair (QueryEscape k)) buf (default [] (v !! k))) buf ks
  = foldl (fun buf kv => write_pair (QueryEscape kv.1) buf kv.2) buf (pairs_over v ks).
Proof.
  revert buf. induction ks as [|k ks IH]; intros buf; [done|].
  unfold pairs_over. rewrite bind_cons, foldl_app. cbn [foldl].
  rewrite IH. by rewrite write_values_pairs.
Qed.

(** [Encode] is the pairs of the map, keys in increasing order, each
    escaped and written [k=v], joined by [&]. *)
Lemma Values_Encode_pairs (v : Values) :
  Values_Encode v = join_amp (encode_pair <$> Values_pairs v).
Proof.
  unfold Values_Encode, Values_pairs. case_bool_decide as Hsz.
  - apply map_size_empty_iff in Hsz. subst v. by rewrite map_to_list_empty.
  - rewrite write_keys_pairs, write_pairs_join.
    by destruct (pairs_over v _).
Qed.

(** An escaped key or value holds neither of the separators of a query
    string, so the pairs of an encoded query are told apart by them. *)
Lemma QueryEscape_no_separator (s : string) :
  string_forall (fun c => negb (Ascii.eqb c "&" || Ascii.eqb c "=")) (QueryEscape s)
  = true.
Proof.
  induction s as [|c s IH]; [done|].
  destruct c as [[] [] [] [] [] [] [] []]; exact IH.
Qed.

Lemma pairs_over_keys (v : Values) ks k :
  k ∈ (pairs_over v ks).*1 -> k ∈ ks.
Proof.
  unfold pairs_over. intros ([k' x] & -> & Hin)%list_elem_of_fmap.
  apply list_elem_of_bind in Hin as (k0 & Hin & Hk0).
  apply list_elem_of_fmap in Hin as (x' & [= -> ->] & _). done.
Qed.

Lemma pairs_over_sorted (v : Values) ks :
  StronglySorted String.le ks -> StronglySorted String.le (pairs_over v ks).*1.
Proof.
  induction 1 as [|k ks Hs IH Hall]; [constructor|].
  unfold pairs_over. rewrite bind_cons, fmap_app. fold (pairs_over v ks).
  induction (default [] (v !! k)) as [|x vs IHvs]; [done|].
  cbn. constructor; [done|].
  apply Forall_app. split.
  - apply Forall_forall. intros k' ([k0 x0] & -> & Hin)%list_elem_of_fmap.
    apply list_elem_of_fmap in Hin as (x' & [= -> ->] & _). done.
  - apply Forall_forall. intros k' Hin%pairs_over_keys.
    by eapply Forall_forall in Hall.
Qed.

(** The keys of the encoded pairs come in increasing order. *)
Lemma Values_pairs_sorted (v : Values) :
  StronglySorted String.le (Values_pairs v).*1.
Proof. apply pairs_over_sorted, StronglySorted_merge_sort; apply _. Qed.

Lemma occurrences_app kv l1 l2 :
  occurrences kv (l1 ++ l2) = occurrences kv l1 + occurrences kv l2.
Proof. apply count_occ_app. Qed.

Lemma occurrences_pair_fmap k x k0 (vs : list string) :
  occurrences (k, x) (pair k0 <$> vs)
  = if decide (k = k0) then count_occ (fun a b => decide (a = b)) vs x else 0.
Proof.
  unfold occurrences. induction vs as [|y vs IH].
  - by destruct (decide (k = k0)).
  - rewrite fmap_cons. destruct (decide ((k0, y) = (k, x))) as [[= -> ->]|Hne].
    + rewrite count_occ_cons_eq, IH by done.
      rewrite !decide_True by done. by rewrite count_occ_cons_eq.
    + rewrite count_occ_cons_neq, IH by done.
      destruct (decide (k = k0)) as [->|Hk]; [|done].
      rewrite count_occ_cons_neq; [done|]. by intros ->.
Qed.

Lemma occurrences_pairs_over (v : Values) ks k x :
  NoDup ks ->
  occurrences (k, x) (pairs_over v ks)
  = if decide (k ∈ ks)
    then count_occ (fun a b => decide (a = b)) (default [] (v !! k)) x
    else 0.
Proof.
  induction 1 as [|k0 ks Hk0 Hnd IH]; [done|].
  unfold pairs_over. rewrite bind_cons. fold (pairs_over v ks).
  rewrite occurrences_app, IH, occurrences_pair_fmap.
  destruct (decide (k = k0)) as [->|Hne].
  - rewrite (decide_False (P := k0 ∈ ks)) by done.
    rewrite decide_True by (by apply elem_of_cons; left). lia.
  - destruct (decide (k ∈ ks)).
    + by rewrite decide_True by (by apply elem_of_cons; right).
    + by rewrite decide_False by (by intros [?|?]%elem_of_cons).
Qed.

(** A pair occurs among the encoded pairs as often as its value occurs
    under its key. *)
Lemma occurrences_Values_pairs (v : Values) k x :
  occurrences (k, x) (Values_pairs v)
  = count_occ (fun a b => decide (a = b)) (default [] (v !! k)) x.
Proof.
  unfold Values_pairs. rewrite occurrences_pairs_over.
  2:{ rewrite merge_sort_Permutation. apply NoDup_fst_map_to_list. }
  case_decide as Hin; [done|].
  destruct (v !! k) as [vs|] eqn:Hk; [|done].
  exfalso. apply Hin. rewrite merge_sort_Permutation.
  apply list_elem_of_fmap. exists (k, vs). split; [done|].
  by apply elem_of_map_to_list.
Qed.

(** ** The executor: its contract *)

Section Contract.
Context `{NetLib} `{World}.
Variables (ctx : Context) (url email passwd : string).

(** On a live configuration the executor always returns, and leaves the
    heap as it found it. *)
Lemma exec_total l σ cfg :
  heap σ !! l = Some cfg ->
  exists r evs,
    CustomHTTPRequest ctx url email passwd (Some l) σ
    = (Done r, mkState (heap σ) (trace σ ++ evs)).
Proof.
  intros Hcfg.
  assert (Hsend : forall auth,
    token_resolved cfg ctx email passwd auth ->
    exists r evs,
      CustomHTTPRequest ctx url email passwd (Some l) σ
      = (Done r, mkState (heap σ) (trace σ ++ evs))).
  { intros auth Hauth.
    destruct (NewRequestWithContext ctx (httpMethod cfg) url (body cfg))
      as [req0|err] eqn:Hnew.
    - destruct (exec_issue ctx url email passwd l σ cfg Hcfg auth req0 Hauth Hnew)
        as (req & -> & _). eauto.
    - rewrite (exec_newrequest_fails ctx url email passwd l σ cfg Hcfg auth err)
        by done. eauto. }
  destruct (useInvalidToken cfg) eqn:Hu.
  - apply (Hsend "Bearer Invalid Token"). unfold token_resolved. by rewrite Hu.
  - destruct (MyLoginAPI ctx email passwd) as [resp|err] eqn:Hlogin.
    + apply (Hsend ("Bearer " +:+ Token resp)). unfold token_resolved.
      rewrite Hu. eauto.
    + rewrite (exec_login_fails ctx url email passwd l σ cfg Hcfg err) by done.
      eauto.
Qed.

(** C1: a nil configuration is not replaced by the defaults: the executor
    reads [p.useInvalidToken] through the nil pointer and panics, where
    the same call with the configuration built from no option returns. *)
Theorem CustomHTTPRequest_nil_config_panics (σ : State) :
  CustomHTTPRequest ctx url email passwd None σ = (Panic nil_deref, σ)
  /\ exists p σ1 r σ2,
       NewOptReqParams [] σ = (Done p, σ1)
       /\ CustomHTTPRequest ctx url email passwd p σ1 = (Done r, σ2).
Proof.
  split; [reflexivity|].
  pose proof (builder_no_options σ) as Hnew.
  destruct (exec_total (fresh (dom (heap σ)))
              (mkState (<[fresh (dom (heap σ)) := defaultOptReqParams]> (heap σ))
                 (trace σ)) _ (lookup_insert_eq _ _ _))
    as (r & evs & Hrun).
  eauto 10.
Qed.

(** C2: when the invalid token is not asked for and the login fails, the
    executor returns an error whose message is the login-failure text
    followed by the message of the cause, and the login call is the only
    thing that happened: no request was built or sent. *)
Theorem login_failure_wrapped l σ cfg err :
  heap σ !! l = Some cfg ->
  useInvalidToken cfg = false ->
  MyLoginAPI ctx email passwd = inr err ->
  exists e,
    CustomHTTPRequest ctx url email passwd (Some l) σ
    = (Done (None, Some e),
       mkState (heap σ) (trace σ ++ [EvLogin ctx email passwd]))
    /\ Error e = "error in login with user provided credentials " +:+ Error err.
Proof.
  intros Hcfg Hu Hlogin. eexists. split.
  - by apply (exec_login_fails ctx url email passwd l σ cfg Hcfg).
  - reflexivity.
Qed.

(** C3: when the invalid token is asked for, no login call is made, and a
    request that is sent carries exactly the invalid-token literal as its
    Authorization header; a request is sent whenever one can be built. *)
Theorem invalid_token_skips_login l σ cfg :
  heap σ !! l = Some cfg ->
  useInvalidToken cfg = true ->
  exists r evs,
    CustomHTTPRequest ctx url email passwd (Some l) σ
    = (Done r, mkState (heap σ) (trace σ ++ evs))
    /\ (forall c e pw, EvLogin c e pw ∉ evs)
    /\ (forall req, EvDo req ∈ evs ->
                    req_Header req !! "Authorization" = Some ["Bearer Invalid Token"])
    /\ (forall req0,
           NewRequestWithContext ctx (httpMethod cfg) url (body cfg) = inl req0 ->
           exists req, EvDo req ∈ evs).
Proof.
  intros Hcfg Hu.
  assert (Hauth : token_resolved cfg ctx email passwd "Bearer Invalid Token").
  { unfold token_resolved. by rewrite Hu. }
  destruct (NewRequestWithContext ctx (httpMethod cfg) url (body cfg))
    as [req0|err] eqn:Hnew.
  - destruct (exec_issue ctx url email passwd l σ cfg Hcfg _ req0 Hauth Hnew)
      as (req & -> & Hhd & _).
    unfold login_events. rewrite Hu. simpl.
    do 2 eexists. split; [reflexivity|]. split; [|split].
    + intros c e pw Hin. apply elem_of_cons in Hin as [?|Hin]; [done|].
      by apply list_elem_of_singleton in Hin.
    + intros req' Hin. apply elem_of_cons in Hin as [?|Hin]; [done|].
      apply list_elem_of_singleton in Hin as [= ->]. rewrite Hhd.
      rewrite lookup_insert_ne by done. apply lookup_insert_eq.
    + intros _ _. exists req. apply elem_of_cons. right.
      by apply list_elem_of_singleton.
  - rewrite (exec_newrequest_fails ctx url email passwd l σ cfg Hcfg _ err Hauth)
      by done.
    unfold login_events. rewrite Hu. simpl.
    do 2 eexists. split; [reflexivity|]. split; [|split].
    + intros c e pw Hin. by apply list_elem_of_singleton in Hin.
    + intros req' Hin. by apply list_elem_of_singleton in Hin.
    + intros req0 [=].
Qed.

(** C6: once the token is resolved and the request is built, the request
    that is sent has three headers and no other: Accept with the
    configured value, Authorization with the resolved value, and
    Content-Type with application/json. *)
Theorem three_headers l σ cfg auth req0 :
  heap σ !! l = Some cfg ->
  token_resolved cfg ctx email passwd auth ->
  NewRequestWithContext ctx (httpMethod cfg) url (body cfg) = inl req0 ->
  exists r req,
    CustomHTTPRequest ctx url email passwd (Some l) σ
    = (Done r,
       mkState (heap σ)
         (trace σ ++ login_events cfg ctx email passwd
            ++ [EvNewRequest ctx (httpMethod cfg) url (body cfg); EvDo req]))
    /\ req_Header req
       = <["Accept" := [acceptHeader cfg]]>
           (<["Authorization" := [auth]]>
              (<["Content-Type" := ["application/json"]]> ∅))
    /\ size (req_Header req) = 3.
Proof.
  intros Hcfg Hauth Hnew.
  destruct (exec_issue ctx url email passwd l σ cfg Hcfg auth req0 Hauth Hnew)
    as (req & Hrun & Hhd & _).
  exists (match client_Do req with
          | inr err => (None, Some err)
          | inl res => (Some res, None)
          end), req.
  split; [done|]. split; [done|]. rewrite Hhd.
  rewrite !map_size_insert_None, map_size_empty; [done|..].
  - apply lookup_empty.
  - by rewrite lookup_insert_ne.
  - by rewrite !lookup_insert_ne.
Qed.

Lemma wrapped_differs (err : error) :
  errors_New (login_failed +:+ Error err) <> err.
Proof.
  destruct err as [s|dyn s]; [|done]. simpl. intros [= Heq].
  apply (f_equal String.length) in Heq.
  rewrite String_app_length in Heq. simpl in Heq. lia.
Qed.

(** C7: the error of request construction and the error of the transport
    reach the caller as they are, where the error of the login is replaced
    by a new error that carries the login-failure text. *)
Theorem build_and_transport_errors_unwrapped l σ cfg :
  heap σ !! l = Some cfg ->
  (forall auth err,
      token_resolved cfg ctx email passwd auth ->
      NewRequestWithContext ctx (httpMethod cfg) url (body cfg) = inr err ->
      CustomHTTPRequest ctx url email passwd (Some l) σ
      = (Done (None, Some err),
         mkState (heap σ)
           (trace σ ++ login_events cfg ctx email passwd
              ++ [EvNewRequest ctx (httpMethod cfg) url (body cfg)])))
  /\ (forall auth req0,
         token_resolved cfg ctx email passwd auth ->
         NewRequestWithContext ctx (httpMethod cfg) url (body cfg) = inl req0 ->
         exists req,
           (CustomHTTPRequest ctx url email passwd (Some l) σ).2
           = mkState (heap σ)
               (trace σ ++ login_events cfg ctx email passwd
                  ++ [EvNewRequest ctx (httpMethod cfg) url (body cfg); EvDo req])
           /\ forall err,
               client_Do req = inr err ->
               (CustomHTTPRequest ctx url email passwd (Some l) σ).1
               = Done (None, Some err))
  /\ (forall err,
         useInvalidToken cfg = false ->
         MyLoginAPI ctx email passwd = inr err ->
         exists e,
           (CustomHTTPRequest ctx url email passwd (Some l) σ).1
           = Done (None, Some e)
           /\ e <> err
           /\ Error e = "error in login with user provided credentials " +:+ Error err).
Proof.
  intros Hcfg. split; [|split].
  - intros auth err Hauth Hnew.
    by apply (exec_newrequest_fails ctx url email passwd l σ cfg Hcfg auth).
  - intros auth req0 Hauth Hnew.
    destruct (exec_issue ctx url email passwd l σ cfg Hcfg auth req0 Hauth Hnew)
      as (req & -> & _).
    exists req. split; [done|]. intros err ->. done.
  - intros err Hu Hlogin.
    rewrite (exec_login_fails ctx url email passwd l σ cfg Hcfg err) by done.
    eexists. split; [done|]. split; [apply wrapped_differs|done].
Qed.

(** C9: the executor leaves the configuration it was given as it found
    it, whichever way it returns: the heap after the call is the heap
    before it, and the call does return. *)
Theorem config_unchanged l σ cfg :
  heap σ !! l = Some cfg ->
  exists r σ',
    CustomHTTPRequest ctx url email passwd (Some l) σ = (Done r, σ')
    /\ heap σ' = heap σ
    /\ heap σ' !! l = Some cfg.
Proof.
  intros Hcfg. destruct (exec_total l σ cfg Hcfg) as (r & evs & ->).
  eauto 10.
Qed.

(** C5: once the token is resolved and the request is built, the query
    string of the request that is sent is, for a non-nil map of query
    parameters, a list of escaped pairs joined by ampersands in which
    every pair of the map occurs once more than in the query of the URL
    given and every other pair as often as there; for a nil map it is the
    query string of the URL given. *)
Theorem query_pairs_appended_once l σ cfg auth req0 :
  heap σ !! l = Some cfg ->
  token_resolved cfg ctx email passwd auth ->
  NewRequestWithContext ctx (httpMethod cfg) url (body cfg) = inl req0 ->
  exists req,
    (CustomHTTPRequest ctx url email passwd (Some l) σ).2
    = mkState (heap σ)
        (trace σ ++ login_events cfg ctx email passwd
           ++ [EvNewRequest ctx (httpMethod cfg) url (body cfg); EvDo req])
    /\ match queryParam cfg with
       | None => RawQuery (req_URL req) = RawQuery (req_URL req0)
       | Some m =>
           exists pairs,
             RawQuery (req_URL req) = join_amp (encode_pair <$> pairs)
             /\ forall k v,
                 occurrences (k, v) pairs
                 = occurrences (k, v)
                     (Values_pairs (url_ParseQuery (RawQuery (req_URL req0))))
                   + (if decide (m !! k = Some v) then 1 else 0)
       end.
Proof.
  intros Hcfg Hauth Hnew.
  destruct (exec_issue ctx url email passwd l σ cfg Hcfg auth req0 Hauth Hnew)
    as (req & -> & _ & _ & _ & Hq).
  exists req. split; [done|].
  destruct (queryParam cfg) as [m|]; [|by rewrite Hq].
  destruct Hq as (q & Hq & ->). exists (Values_pairs q). split.
  - apply Values_Encode_pairs.
  - intros k v. rewrite !occurrences_Values_pairs, Hq.
    destruct (m !! k) as [v'|].
    + cbn [default id from_option]. unfold id.
      rewrite count_occ_app. cbn [count_occ].
      destruct (decide (v' = v)) as [->|Hne].
      * by rewrite decide_True.
      * rewrite decide_False; [done|]. by intros [= ->].
    + destruct (decide (None = Some v)); [done|lia].
Qed.
End Contract.

(** What the loop adds shows in the pairs [Encode] writes: every pair of
    the map once more than before, every other pair as often as before. *)
Lemma occurrences_after_loop (q q0 : Values) (m : gmap string string) :
  (forall k, q !! k = match m !! k with
                      | Some v => Some (default [] (q0 !! k) ++ [v])
                      | None => q0 !! k
                      end) ->
  forall k v,
    occurrences (k, v) (Values_pairs q)
    = occurrences (k, v) (Values_pairs q0)
      + (if decide (m !! k = Some v) then 1 else 0).
Proof.
  intros Hq k v. rewrite !occurrences_Values_pairs, Hq.
  destruct (m !! k) as [v'|].
  - cbn [default id from_option]. unfold id.
    rewrite count_occ_app. cbn [count_occ].
    destruct (decide (v' = v)) as [->|Hne].
    + by rewrite decide_True.
    + rewrite decide_False; [done|]. by intros [= ->].
  - destruct (decide (None = Some v)); [done|lia].
Qed.

(** C10: the query string does not depend on the order in which the map of
    query parameters is walked, nor on what the collaborators answer: two
    calls with the same URL and the same configuration, in any two worlds,
    send requests with the same query string. For a non-nil map that string
    is the escaped pairs joined by ampersands, by increasing key, and the
    pairs are those of the query of the URL given with every pair of the
    map once more; for a nil map it is the query string of the URL given. *)
Theorem query_string_deterministic `{NetLib} (W1 W2 : World)
    (ctx : Context) (url email passwd : string)
    l1 l2 σ1 σ2 cfg auth1 auth2 req0 :
  heap σ1 !! l1 = Some cfg ->
  heap σ2 !! l2 = Some cfg ->
  @token_resolved W1 cfg ctx email passwd auth1 ->
  @token_resolved W2 cfg ctx email passwd auth2 ->
  NewRequestWithContext ctx (httpMethod cfg) url (body cfg) = inl req0 ->
  exists req1 req2,
    last (trace (@CustomHTTPRequest _ W1 ctx url email passwd (Some l1) σ1).2)
    = Some (EvDo req1)
    /\ last (trace (@CustomHTTPRequest _ W2 ctx url email passwd (Some l2) σ2).2)
       = Some (EvDo req2)
    /\ RawQuery (req_URL req1) = RawQuery (req_URL req2)
    /\ (queryParam cfg = None ->
        RawQuery (req_URL req1) = RawQuery (req_URL req0))
    /\ (forall m, queryParam cfg = Some m ->
        exists pairs,
          RawQuery (req_URL req1) = join_amp (encode_pair <$> pairs)
          /\ StronglySorted String.le pairs.*1
          /\ forall k v,
              occurrences (k, v) pairs
              = occurrences (k, v)
                  (Values_pairs (url_ParseQuery (RawQuery (req_URL req0))))
                + (if decide (m !! k = Some v) then 1 else 0)).
Proof.
  intros Hcfg1 Hcfg2 Hauth1 Hauth2 Hnew.
  destruct (@exec_issue _ W1 ctx url email passwd l1 σ1 cfg Hcfg1 auth1 req0 Hauth1 Hnew)
    as (req1 & -> & _ & _ & _ & Hq1).
  destruct (@exec_issue _ W2 ctx url email passwd l2 σ2 cfg Hcfg2 auth2 req0 Hauth2 Hnew)
    as (req2 & -> & _ & _ & _ & Hq2).
  exists req1, req2. simpl.
  split; [by rewrite !last_app|].
  split; [by rewrite !last_app|].
  destruct (queryParam cfg) as [m|].
  - destruct Hq1 as (q1 & Hq1 & ->), Hq2 as (q2 & Hq2 & ->).
    assert (q1 = q2) as <-.
    { apply map_eq. intros k. by rewrite Hq1, Hq2. }
    split; [done|]. split; [done|]. intros m' [= <-].
    exists (Values_pairs q1). split; [|split].
    + apply Values_Encode_pairs.
    + apply Values_pairs_sorted.
    + by apply occurrences_after_loop.
  - rewrite Hq1, Hq2. split; [done|]. split; [done|]. by intros m' [=].
Qed.

(** ** The contract at work: the calls of [main] and their failing variants *)

Example last_writer_wins_demo :
  last_writer_wins
    [MWithMethod "POST"; MWithTwoValues "text/xml" "PUT"; MWithAcceptHeader "text/csv"]
  = mkOptReqParams "PUT" None false None "text/csv".
Proof. reflexivity. Qed.

Example encode_demo :
  Values_Encode (Values_Add "name" "x y&z" (Values_Add "age" "10" ∅))
  = "age=10&name=x+y%26z".
Proof. vm_compute. reflexivity. Qed.

Lemma login_failure_wrapped_witness :
  heap demo_state !! demo_loc = Some demo_cfg
  /\ exists e,
       CustomHTTPRequest (Some 0) "some_url" "nobody" "email_passwd" (Some demo_loc) demo_state
       = (Done (None, Some e),
          mkState (heap demo_state)
            (trace demo_state ++ [EvLogin (Some 0) "nobody" "email_passwd"]))
       /\ Error e = "error in login with user provided credentials 401 unauthorized".
Proof.
  split; [vm_compute; reflexivity|].
  apply (login_failure_wrapped (Some 0) "some_url" "nobody" "email_passwd"
           demo_loc demo_state demo_cfg (otherError "*api.Error" "401 unauthorized"));
    vm_compute; reflexivity.
Defined.

Lemma invalid_token_skips_login_witness :
  exists r evs,
    CustomHTTPRequest (Some 0) "some_url" "email_addr" "email_passwd"
      (Some demo_loc) invalid_state
    = (Done r, mkState (heap invalid_state) (trace invalid_state ++ evs))
    /\ (forall c e pw, EvLogin c e pw ∉ evs)
    /\ (forall req, EvDo req ∈ evs ->
                    req_Header req !! "Authorization" = Some ["Bearer Invalid Token"])
    /\ (forall req0,
           NewRequestWithContext (Some 0) (httpMethod invalid_cfg) "some_url"
             (body invalid_cfg) = inl req0 ->
           exists req, EvDo req ∈ evs).
Proof.
  apply (invalid_token_skips_login (Some 0) "some_url" "email_addr" "email_passwd"
           demo_loc invalid_state invalid_cfg); vm_compute; reflexivity.
Defined.

Lemma demo_token_resolved :
  token_resolved demo_cfg (Some 0) "email_addr" "email_passwd" "Bearer tok123".
Proof. exists (mkLoginResp "tok123"). split; reflexivity. Defined.

Lemma three_headers_witness :
  exists r req,
    CustomHTTPRequest (Some 0) "some_url" "email_addr" "email_passwd"
      (Some demo_loc) demo_state
    = (Done r,
       mkState (heap demo_state)
         (trace demo_state ++ login_events demo_cfg (Some 0) "email_addr" "email_passwd"
            ++ [EvNewRequest (Some 0) "POST" "some_url" None; EvDo req]))
    /\ req_Header req
       = <["Accept" := ["application/json"]]>
           (<["Authorization" := ["Bearer tok123"]]>
              (<["Content-Type" := ["application/json"]]> ∅))
    /\ size (req_Header req) = 3.
Proof.
  apply (three_headers (Some 0) "some_url" "email_addr" "email_passwd"
           demo_loc demo_state demo_cfg "Bearer tok123"
           (mkRequest 0 "POST" demo_url ∅ None)).
  - vm_compute; reflexivity.
  - exact demo_token_resolved.
  - vm_compute; reflexivity.
Defined.

Lemma build_and_transport_errors_unwrapped_witness :
  CustomHTTPRequest (Some 0) "%" "email_addr" "email_passwd" (Some demo_loc) demo_state
  = (Done (None, Some (otherError "*url.Error" "parse: invalid URL escape")),
     mkState (heap demo_state)
       (trace demo_state ++ [EvLogin (Some 0) "email_addr" "email_passwd";
                             EvNewRequest (Some 0) "POST" "%" None]))
  /\ (CustomHTTPRequest (Some 0) "https://down.example.com/" "email_addr" "email_passwd"
        (Some demo_loc) demo_state).1
     = Done (None, Some (otherError "*url.Error" "dial tcp: connection refused"))
  /\ exists e,
       (CustomHTTPRequest (Some 0) "some_url" "nobody" "email_passwd"
          (Some demo_loc) demo_state).1 = Done (None, Some e)
       /\ e <> otherError "*api.Error" "401 unauthorized"
       /\ Error e = "error in login with user provided credentials 401 unauthorized".
Proof.
  assert (Hcfg : heap demo_state !! demo_loc = Some demo_cfg)
    by (vm_compute; reflexivity).
  split; [|split].
  - apply (proj1 (@build_and_transport_errors_unwrapped demo_lib demo_world (Some 0) "%"
                    "email_addr" "email_passwd" demo_loc demo_state demo_cfg Hcfg)
             "Bearer tok123").
    + exact demo_token_resolved.
    + vm_compute; reflexivity.
  - destruct (proj1 (proj2 (@build_and_transport_errors_unwrapped demo_lib demo_world (Some 0)
                              "https://down.example.com/" "email_addr" "email_passwd"
                              demo_loc demo_state demo_cfg Hcfg))
                "Bearer tok123" (mkRequest 0 "POST" down_url ∅ None)
                demo_token_resolved ltac:(vm_compute; reflexivity))
      as (req & Htrace & Herr).
    apply Herr.
    apply (f_equal trace) in Htrace. apply (f_equal last) in Htrace.
    vm_compute in Htrace. injection Htrace as <-. vm_compute; reflexivity.
  - apply (proj2 (proj2 (@build_and_transport_errors_unwrapped demo_lib demo_world (Some 0) "some_url"
                           "nobody" "email_passwd" demo_loc demo_state demo_cfg Hcfg)));
      vm_compute; reflexivity.
Defined.

Lemma config_unchanged_witness :
  exists r σ',
    CustomHTTPRequest (Some 0) "some_url" "email_addr" "email_passwd"
      (Some demo_loc) demo_state = (Done r, σ')
    /\ heap σ' = heap demo_state
    /\ heap σ' !! demo_loc = Some demo_cfg.
Proof.
  apply (config_unchanged (Some 0) "some_url" "email_addr" "email_passwd"
           demo_loc demo_state demo_cfg).
  vm_compute; reflexivity.
Defined.

Lemma query_pairs_appended_once_witness :
  exists req,
    (CustomHTTPRequest (Some 0) "some_url" "email_addr" "email_passwd"
       (Some demo_loc) demo_state).2
    = mkState (heap demo_state)
        (trace demo_state ++ login_events demo_cfg (Some 0) "email_addr" "email_passwd"
           ++ [EvNewRequest (Some 0) "POST" "some_url" None; EvDo req])
    /\ exists pairs,
         RawQuery (req_URL req) = join_amp (encode_pair <$> pairs)
         /\ forall k v,
             occurrences (k, v) pairs
             = occurrences (k, v) (Values_pairs (url_ParseQuery ""))
               + (if decide (demo_query !! k = Some v) then 1 else 0).
Proof.
  apply (query_pairs_appended_once (Some 0) "some_url" "email_addr" "email_passwd"
           demo_loc demo_state demo_cfg "Bearer tok123"
           (mkRequest 0 "POST" demo_url ∅ None)).
  - vm_compute; reflexivity.
  - exact demo_token_resolved.
  - vm_compute; reflexivity.
Defined.

Lemma query_string_deterministic_witness :
  exists req1 req2,
    last (trace (@CustomHTTPRequest demo_lib demo_world (Some 0) "some_url"
                   "email_addr" "email_passwd" (Some demo_loc) demo_state).2)
    = Some (EvDo req1)
    /\ last (trace (@CustomHTTPRequest demo_lib demo_world_rev (Some 0) "some_url"
                      "email_addr" "email_passwd" (Some demo_loc) demo_state).2)
       = Some (EvDo req2)
    /\ RawQuery (req_URL req1) = RawQuery (req_URL req2)
    /\ (queryParam demo_cfg = None -> RawQuery (req_URL req1) = RawQuery demo_url)
    /\ (forall m, queryParam demo_cfg = Some m ->
        exists pairs,
          RawQuery (req_URL req1) = join_amp (encode_pair <$> pairs)
          /\ StronglySorted String.le pairs.*1
          /\ forall k v,
              occurrences (k, v) pairs
              = occurrences (k, v) (Values_pairs (url_ParseQuery (RawQuery demo_url)))
                + (if decide (m !! k = Some v) then 1 else 0)).
Proof.
  apply (@query_string_deterministic demo_lib demo_world demo_world_rev
           (Some 0) "some_url" "email_addr" "email_passwd"
           demo_loc demo_loc demo_state demo_state demo_cfg
           "Bearer tok123" "Bearer tok123" (mkRequest 0 "POST" demo_url ∅ None)).
  - vm_compute; reflexivity.
  - vm_compute; reflexivity.
  - exact demo_token_resolved.
  - exists (mkLoginResp "tok123"). split; reflexivity.
  - vm_compute; reflexivity.
Defined.

(** ** More on the builder: how options compose *)

(** The builder, run: a fresh draft that ends as the last-writer-wins
    record of the options. *)
Lemma builder_run (ms : list Mutator) (σ : State) :
  NewOptReqParams (option_of <$> ms) σ
  = (Done (Some (fresh (dom (heap σ)))),
     mkState (<[fresh (dom (heap σ)) := last_writer_wins ms]> (heap σ)) (trace σ)).
Proof.
  unfold NewOptReqParams. run_go.
  rewrite (options_run ms _ defaultOptReqParams) by apply lookup_insert_eq.
  by rewrite insert_insert_eq.
Qed.

Lemma last_write_app {A} (w : Mutator -> option A) ms1 ms2 :
  last_write w (ms1 ++ ms2)
  = match last_write w ms2 with
    | Some a => Some a
    | None => last_write w ms1
    end.
Proof.
  induction ms1 as [|m ms1 IH]; simpl.
  - by destruct (last_write w ms2).
  - rewrite IH. by destruct (last_write w ms2).
Qed.

Lemma last_writer_over_app s ms1 ms2 :
  last_writer_over (last_writer_over s ms1) ms2 = last_writer_over s (ms1 ++ ms2).
Proof.
  revert s. induction ms1 as [|m ms1 IH]; intros s.
  - by rewrite last_writer_over_nil.
  - by rewrite <- (last_writer_over_cons m ms1), IH, last_writer_over_cons.
Qed.

(** Two option lists that agree on the last write to every field build
    the same configuration. *)
Lemma builder_ext (ms1 ms2 : list Mutator) (σ : State) :
  last_write writes_httpMethod ms1 = last_write writes_httpMethod ms2 ->
  last_write writes_body ms1 = last_write writes_body ms2 ->
  last_write writes_useInvalidToken ms1 = last_write writes_useInvalidToken ms2 ->
  last_write writes_queryParam ms1 = last_write writes_queryParam ms2 ->
  last_write writes_acceptHeader ms1 = last_write writes_acceptHeader ms2 ->
  NewOptReqParams (option_of <$> ms1) σ = NewOptReqParams (option_of <$> ms2) σ.
Proof.
  intros H1 H2 H3 H4 H5. rewrite !builder_run.
  unfold last_writer_wins, last_writer_over. by rewrite H1, H2, H3, H4, H5.
Qed.

(** X1: the builder makes no call out of the package, returns a pointer
    that no live configuration has, and leaves every live configuration as
    it was. *)
Theorem NewOptReqParams_frame (ms : list Mutator) (σ : State) :
  exists l σ',
    NewOptReqParams (option_of <$> ms) σ = (Done (Some l), σ')
    /\ trace σ' = trace σ
    /\ forall l' cfg', heap σ !! l' = Some cfg' ->
                       l' <> l /\ heap σ' !! l' = Some cfg'.
Proof.
  do 2 eexists. split; [apply builder_run|]. split; [done|].
  intros l' cfg' Hl'. simpl.
  assert (l' <> fresh (dom (heap σ))) as Hne.
  { intros ->. by rewrite fresh_loc_free in Hl'. }
  split; [done|]. by rewrite lookup_insert_ne.
Qed.

(** X2: [WithTwoValues a m], wherever it stands among the options, builds
    what [WithMethod m] and [WithAcceptHeader a] build in its place, in
    either order. *)
Theorem WithTwoValues_as_two_options (ms1 ms2 : list Mutator) a m (σ : State) :
  NewOptReqParams (option_of <$> ms1 ++ MWithTwoValues a m :: ms2) σ
  = NewOptReqParams
      (option_of <$> ms1 ++ MWithMethod m :: MWithAcceptHeader a :: ms2) σ
  /\ NewOptReqParams (option_of <$> ms1 ++ MWithTwoValues a m :: ms2) σ
     = NewOptReqParams
         (option_of <$> ms1 ++ MWithAcceptHeader a :: MWithMethod m :: ms2) σ.
Proof.
  split; apply builder_ext; rewrite !last_write_app; simpl;
    by repeat match goal with
              | |- context [last_write ?w ms2] => destruct (last_write w ms2)
              end.
Qed.

Lemma last_write_swap {A} (w : Mutator -> option A) ms1 m1 m2 ms2 :
  w m1 = None \/ w m2 = None ->
  last_write w (ms1 ++ m1 :: m2 :: ms2) = last_write w (ms1 ++ m2 :: m1 :: ms2).
Proof.
  intros Hw. rewrite !last_write_app. simpl.
  destruct (last_write w ms2); [done|].
  destruct Hw as [-> | ->]; by destruct (w m1), (w m2).
Qed.

Lemma touches_disjoint {A} (w : Mutator -> option A) f m1 m2 :
  (forall m, touches m f = isSome (w m)) ->
  touches m1 f && touches m2 f = false ->
  w m1 = None \/ w m2 = None.
Proof.
  intros Hf. rewrite !Hf. destruct (w m1), (w m2); simpl; auto; discriminate.
Qed.

(** X3: two neighbouring options that write no field in common can change
    places. *)
Theorem disjoint_options_commute (ms1 ms2 : list Mutator) m1 m2 (σ : State) :
  (forall f, touches m1 f && touches m2 f = false) ->
  NewOptReqParams (option_of <$> ms1 ++ m1 :: m2 :: ms2) σ
  = NewOptReqParams (option_of <$> ms1 ++ m2 :: m1 :: ms2) σ.
Proof.
  intros Hdis. apply builder_ext; apply last_write_swap.
  - by apply (touches_disjoint _ FhttpMethod).
  - by apply (touches_disjoint _ Fbody).
  - by apply (touches_disjoint _ FuseInvalidToken).
  - by apply (touches_disjoint _ FqueryParam).
  - by apply (touches_disjoint _ FacceptHeader).
Qed.

Lemma last_write_shadow {A} (w : Mutator -> option A) ms1 m mid m' ms2 :
  (isSome (w m) = true -> isSome (w m') = true) ->
  last_write w (ms1 ++ m :: mid ++ m' :: ms2)
  = last_write w (ms1 ++ mid ++ m' :: ms2).
Proof.
  intros Hw. rewrite !last_write_app. simpl. rewrite !last_write_app. simpl.
  destruct (last_write w ms2); [done|].
  destruct (w m') eqn:Hm'; [done|].
  destruct (w m); [|by destruct (last_write w mid)].
  by specialize (Hw eq_refl).
Qed.

(** X4: an option is without effect when a later option writes every field
    it writes: it can be left out. *)
Theorem shadowed_option_irrelevant (ms1 mid ms2 : list Mutator) m m' (σ : State) :
  (forall f, touches m f = true -> touches m' f = true) ->
  NewOptReqParams (option_of <$> ms1 ++ m :: mid ++ m' :: ms2) σ
  = NewOptReqParams (option_of <$> ms1 ++ mid ++ m' :: ms2) σ.
Proof.
  intros Hsh. apply builder_ext; apply last_write_shadow.
  - apply (Hsh FhttpMethod).
  - apply (Hsh Fbody).
  - apply (Hsh FuseInvalidToken).
  - apply (Hsh FqueryParam).
  - apply (Hsh FacceptHeader).
Qed.

(** X5: a configuration stays open to its options after it is built: an
    option run on the pointer the builder returned leaves what the builder
    would have built with that option passed last. *)
Theorem option_after_build (ms : list Mutator) (m : Mutator) (σ : State) :
  (p <- NewOptReqParams (option_of <$> ms) ;; option_of m p ;;; ret p) σ
  = NewOptReqParams (option_of <$> ms ++ [m]) σ.
Proof.
  unfold bind at 1. rewrite !builder_run.
  unfold bind. rewrite (option_of_run m _ (last_writer_wins ms))
    by apply lookup_insert_eq.
  unfold ret. rewrite insert_insert_eq.
  unfold last_writer_wins. by rewrite last_writer_over_app.
Qed.

(** ** More on the executor *)

Section MoreContract.
Context `{NetLib} `{World}.
Variables (ctx : Context) (url email passwd : string).


(** The three ways through the executor, told apart. *)
Lemma exec_cases l σ cfg :
  heap σ !! l = Some cfg ->
  (exists err,
      useInvalidToken cfg = false
      /\ MyLoginAPI ctx email passwd = inr err
      /\ CustomHTTPRequest ctx url email passwd (Some l) σ
         = (Done (None, Some (errors_New (login_failed +:+ Error err))),
            mkState (heap σ) (trace σ ++ [EvLogin ctx email passwd])))
  \/ (exists auth err,
         token_resolved cfg ctx email passwd auth
         /\ NewRequestWithContext ctx (httpMethod cfg) url (body cfg) = inr err
         /\ CustomHTTPRequest ctx url email passwd (Some l) σ
            = (Done (None, Some err),
               mkState (heap σ)
                 (trace σ ++ login_events cfg ctx email passwd
                    ++ [EvNewRequest ctx (httpMethod cfg) url (body cfg)])))
  \/ (exists auth req0 req,
         token_resolved cfg ctx email passwd auth
         /\ NewRequestWithContext ctx (httpMethod cfg) url (body cfg) = inl req0
         /\ CustomHTTPRequest ctx url email passwd (Some l) σ
            = (Done (match client_Do req with
                     | inr err => (None, Some err)
                     | inl res => (Some res, None)
                     end),
               mkState (heap σ)
                 (trace σ ++ login_events cfg ctx email passwd
                    ++ [EvNewRequest ctx (httpMethod cfg) url (body cfg); EvDo req]))).
Proof.
  intros Hcfg.
  assert (Hsend : forall auth,
    token_resolved cfg ctx email passwd auth ->
    (exists auth err,
        token_resolved cfg ctx email passwd auth
        /\ NewRequestWithContext ctx (httpMethod cfg) url (body cfg) = inr err
        /\ CustomHTTPRequest ctx url email passwd (Some l) σ
           = (Done (None, Some err),
              mkState (heap σ)
                (trace σ ++ login_events cfg ctx email passwd
                   ++ [EvNewRequest ctx (httpMethod cfg) url (body cfg)])))
    \/ (exists auth req0 req,
           token_resolved cfg ctx email passwd auth
           /\ NewRequestWithContext ctx (httpMethod cfg) url (body cfg) = inl req0
           /\ CustomHTTPRequest ctx url email passwd (Some l) σ
              = (Done (match client_Do req with
                       | inr err => (None, Some err)
                       | inl res => (Some res, None)
                       end),
                 mkState (heap σ)
                   (trace σ ++ login_events cfg ctx email passwd
                      ++ [EvNewRequest ctx (httpMethod cfg) url (body cfg); EvDo req])))).
  { intros auth Hauth.
    destruct (NewRequestWithContext ctx (httpMethod cfg) url (body cfg))
      as [req0|err] eqn:Hnew.
    - right.
      destruct (exec_issue ctx url email passwd l σ cfg Hcfg auth req0 Hauth Hnew)
        as (req & Hrun & _).
      exists auth, req0, req. eauto.
    - left. exists auth, err. split; [done|]. split; [done|].
      by apply (exec_newrequest_fails ctx url email passwd l σ cfg Hcfg auth). }
  destruct (useInvalidToken cfg) eqn:Hu.
  - right. apply (Hsend "Bearer Invalid Token"). unfold token_resolved. by rewrite Hu.
  - destruct (MyLoginAPI ctx email passwd) as [resp|err] eqn:Hlogin.
    + right. apply (Hsend ("Bearer " +:+ Token resp)). unfold token_resolved.
      rewrite Hu. eauto.
    + left. exists err. split; [done|]. split; [done|].
      by apply (exec_login_fails ctx url email passwd l σ cfg Hcfg).
Qed.

(** X6: the executor tries once: whatever happens, it makes at most one
    login call (exactly one unless the invalid token is asked for, and then
    before anything else) and sends at most one request; when it returns a
    response, it has sent exactly one. *)
Theorem single_attempt l σ cfg :
  heap σ !! l = Some cfg ->
  exists r evs,
    CustomHTTPRequest ctx url email passwd (Some l) σ
    = (Done r, mkState (heap σ) (trace σ ++ evs))
    /\ List.length (filter is_EvLogin evs) = (if useInvalidToken cfg then 0 else 1)
    /\ (useInvalidToken cfg = false -> head evs = Some (EvLogin ctx email passwd))
    /\ List.length (filter is_EvDo evs) <= 1
    /\ (is_Some r.1 -> List.length (filter is_EvDo evs) = 1).
Proof.
  intros Hcfg.
  destruct (exec_cases l σ cfg Hcfg)
    as [(err & Hu & _ & ->) | [(auth & err & _ & _ & ->) | (auth & req0 & req & _ & _ & ->)]];
    do 2 eexists; (split; [reflexivity|]); unfold login_events.
  - rewrite Hu. simpl. split; [done|]. split; [done|]. split; [lia|].
    by intros [? [=]].
  - destruct (useInvalidToken cfg); simpl; (split; [done|]); (split; [done|]);
      (split; [lia|]); by intros [? [=]].
  - destruct (useInvalidToken cfg); simpl; (split; [done|]); (split; [done|]);
      (split; [lia|]); done.
Qed.

(** X7: when the transport answers, the executor returns that response as
    it is, with no error. *)
Theorem success_returns_response l σ cfg auth req0 :
  heap σ !! l = Some cfg ->
  token_resolved cfg ctx email passwd auth ->
  NewRequestWithContext ctx (httpMethod cfg) url (body cfg) = inl req0 ->
  exists req,
    (CustomHTTPRequest ctx url email passwd (Some l) σ).2
    = mkState (heap σ)
        (trace σ ++ login_events cfg ctx email passwd
           ++ [EvNewRequest ctx (httpMethod cfg) url (body cfg); EvDo req])
    /\ forall res,
        client_Do req = inl res ->
        (CustomHTTPRequest ctx url email passwd (Some l) σ).1
        = Done (Some res, None).
Proof.
  intros Hcfg Hauth Hnew.
  destruct (exec_issue ctx url email passwd l σ cfg Hcfg auth req0 Hauth Hnew)
    as (req & -> & _).
  exists req. split; [done|]. by intros res ->.
Qed.

(** [send_request], run on a live configuration when the request can be
    built. *)
Lemma send_request_run l σ1 cfg authString req0 :
  heap σ1 !! l = Some cfg ->
  NewRequestWithContext ctx (httpMethod cfg) url (body cfg) = inl req0 ->
  send_request ctx url (Some l) authString σ1
  = (Done (match client_Do (sent_request cfg authString req0) with
           | inr err => (None, Some err)
           | inl res => (Some res, None)
           end),
     mkState (heap σ1)
       (trace σ1 ++ [EvNewRequest ctx (httpMethod cfg) url (body cfg);
                     EvDo (sent_request cfg authString req0)])).
Proof.
  destruct σ1 as [h1 t]. simpl. intros Hcfg Hnew.
  unfold send_request, sent_request.
  unfold bind at 1. unfold load at 1; simpl. rewrite Hcfg.
  unfold bind at 1. unfold load at 1; simpl. rewrite Hcfg.
  unfold bind at 1. unfold emit at 1; simpl. rewrite Hnew.
  unfold bind at 1. unfold load at 1; simpl. rewrite Hcfg.
  unfold bind at 1. unfold load at 1; simpl. rewrite Hcfg.
  destruct (queryParam cfg) as [m|] eqn:Hqp.
  - unfold bind at 1. unfold bind at 1.
    rewrite (query_loop l (mkState h1 t) cfg Hcfg), Hqp.
    unfold ret at 1. unfold bind, emit, set_URL, set_Header; simpl.
    rewrite <- app_assoc; simpl.
    by destruct (client_Do _).
  - unfold bind at 1. unfold ret at 1.
    unfold bind, emit, set_URL, set_Header; simpl.
    rewrite <- app_assoc; simpl.
    by destruct (client_Do _).
Qed.

(** The executor, run on a live configuration when the token is resolved
    and the request can be built. *)
Lemma exec_sent l σ cfg auth req0 :
  heap σ !! l = Some cfg ->
  token_resolved cfg ctx email passwd auth ->
  NewRequestWithContext ctx (httpMethod cfg) url (body cfg) = inl req0 ->
  CustomHTTPRequest ctx url email passwd (Some l) σ
  = (Done (match client_Do (sent_request cfg auth req0) with
           | inr err => (None, Some err)
           | inl res => (Some res, None)
           end),
     mkState (heap σ)
       (trace σ ++ login_events cfg ctx email passwd
          ++ [EvNewRequest ctx (httpMethod cfg) url (body cfg);
              EvDo (sent_request cfg auth req0)])).
Proof.
  intros Hcfg Hauth Hnew. unfold CustomHTTPRequest, token_resolved, login_events in *.
  unfold bind at 1. unfold load at 1. rewrite Hcfg.
  destruct (useInvalidToken cfg).
  - change ("Bearer " +:+ "Invalid Token") with "Bearer Invalid Token".
    rewrite <- Hauth. by rewrite (send_request_run l σ cfg auth req0).
  - destruct Hauth as (resp & -> & Hauth).
    unfold bind at 1. unfold emit at 1.
    rewrite <- Hauth, (send_request_run l _ cfg auth req0) by done.
    simpl. by rewrite <- app_assoc.
Qed.

End MoreContract.

(** ** Escaping and parsing of query strings *)

Lemma string_forall_app f (a b : string) :
  string_forall f (a +:+ b) = string_forall f a && string_forall f b.
Proof.
  unfold string_forall. induction a as [|c a IH]; [done|].
  rewrite String_app_cons. simpl. by rewrite IH, andb_assoc.
Qed.

Lemma string_forall_impl (f g : ascii -> bool) (s : string) :
  (forall c, f c = true -> g c = true) ->
  string_forall f s = true -> string_forall g s = true.
Proof.
  intros Hfg. unfold string_forall. induction s as [|c s IH]; [done|]. simpl.
  intros [Hc Hs]%andb_true_iff. by rewrite (Hfg c Hc), IH.
Qed.

Lemma QueryEscape_escaped (s : string) :
  string_forall escaped_byte (QueryEscape s) = true.
Proof.
  induction s as [|c s IH]; [done|].
  destruct c as [[] [] [] [] [] [] [] []]; exact IH.
Qed.

Lemma escaped_byte_not (sep : ascii) :
  escaped_byte sep = false ->
  forall c, escaped_byte c = true -> negb (Ascii.eqb c sep) = true.
Proof.
  intros Hsep c Hc. destruct (Ascii.eqb_spec c sep) as [->|]; [|done].
  congruence.
Qed.

Lemma unescape_escape (s : string) :
  QueryUnescape (QueryEscape s) = Some s.
Proof.
  induction s as [|c s IH]; [done|].
  transitivity (String c <$> QueryUnescape (QueryEscape s)); [|by rewrite IH].
  destruct c as [[] [] [] [] [] [] [] []]; reflexivity.
Qed.

Lemma Cut_no_sep sep (a : string) :
  string_forall (fun c => negb (Ascii.eqb c sep)) a = true ->
  Cut sep a = (a, "", false).
Proof.
  unfold string_forall. induction a as [|c a IH]; [done|]. simpl.
  intros [Hc Ha]%andb_true_iff. apply negb_true_iff in Hc. by rewrite Hc, IH.
Qed.

Lemma Cut_app_sep sep (a b : string) :
  string_forall (fun c => negb (Ascii.eqb c sep)) a = true ->
  Cut sep (a +:+ String sep b) = (a, b, true).
Proof.
  unfold string_forall. induction a as [|c a IH].
  - intros _. change ("" +:+ String sep b) with (String sep b). simpl.
    by rewrite Ascii.eqb_refl.
  - rewrite String_app_cons. simpl.
    intros [Hc Ha]%andb_true_iff. apply negb_true_iff in Hc.
    by rewrite Hc, IH.
Qed.

Lemma Contains_false (s : string) c :
  string_forall (fun x => negb (Ascii.eqb x c)) s = true -> Contains s c = false.
Proof.
  unfold string_forall, Contains. induction s as [|x s IH]; [done|]. simpl.
  intros [Hx Hs]%andb_true_iff. apply negb_true_iff in Hx.
  by rewrite Ascii.eqb_sym, Hx, IH.
Qed.

Lemma QueryEscape_no sep (s : string) :
  escaped_byte sep = false ->
  string_forall (fun c => negb (Ascii.eqb c sep)) (QueryEscape s) = true.
Proof.
  intros Hsep. apply (string_forall_impl escaped_byte); [|apply QueryEscape_escaped].
  by apply escaped_byte_not.
Qed.

Lemma encode_pair_no sep kv :
  escaped_byte sep = false -> Ascii.eqb "=" sep = false ->
  string_forall (fun c => negb (Ascii.eqb c sep)) (encode_pair kv) = true.
Proof.
  intros Hsep Heq. unfold encode_pair. rewrite !string_forall_app.
  rewrite !QueryEscape_no by done.
  unfold string_forall. cbn [list_ascii_of_string forallb]. by rewrite Heq.
Qed.

Lemma String_eqb_app_cons (a : string) c (b : string) :
  String.eqb (a +:+ String c b) "" = false.
Proof. by destruct a. Qed.

(** One round of the parser on a query that starts with an encoded pair. *)
Lemma parseQuery_encoded fuel m k x (query : string) (found : bool) key :
  String.eqb key "" = false ->
  Cut "&" key = (encode_pair (k, x), query, found) ->
  parseQuery (S fuel) m key = parseQuery fuel (Values_Add k x m) query.
Proof.
  intros Hne Hcut. cbn [parseQuery]. rewrite Hne, Hcut.
  rewrite Contains_false by (by apply encode_pair_no).
  assert (String.eqb (encode_pair (k, x)) "" = false) as ->.
  { unfold encode_pair. generalize (QueryEscape (k, x).1). intros a.
    apply String_eqb_app_cons. }
  unfold encode_pair. cbn [fst snd].
  change (QueryEscape k +:+ "=" +:+ QueryEscape x)
    with (QueryEscape k +:+ String "=" (QueryEscape x)).
  rewrite Cut_app_sep by (by apply QueryEscape_no).
  by rewrite !unescape_escape.
Qed.

(** The parser, run on the pairs [Encode] writes, adds them in their
    order. *)
Lemma parseQuery_join (ps : list (string * string)) fuel m :
  String.length (join_amp (encode_pair <$> ps)) <= fuel ->
  parseQuery fuel m (join_amp (encode_pair <$> ps))
  = foldl (fun m kv => Values_Add kv.1 kv.2 m) m ps.
Proof.
  revert fuel m. induction ps as [|[k x] ps IH]; intros fuel m Hfuel.
  - simpl. by destruct fuel.
  - assert (0 < String.length (encode_pair (k, x))) as Hlen.
    { unfold encode_pair. rewrite !String_app_length. simpl. lia. }
    destruct ps as [|p ps].
    + change (join_amp (encode_pair <$> [(k, x)])) with (encode_pair (k, x)) in *.
      destruct fuel as [|fuel]; [lia|].
      rewrite (parseQuery_encoded fuel m k x "" false).
      * simpl. by destruct fuel.
      * destruct (encode_pair (k, x)); [simpl in Hlen; lia|done].
      * apply Cut_no_sep. by apply encode_pair_no.
    + change (join_amp (encode_pair <$> (k, x) :: p :: ps))
        with (encode_pair (k, x) +:+ "&" +:+ join_amp (encode_pair <$> p :: ps)) in *.
      rewrite !String_app_length in Hfuel.
      change (String.length "&") with 1 in Hfuel.
      destruct fuel as [|fuel]; [lia|].
      rewrite (parseQuery_encoded fuel m k x
                 (join_amp (encode_pair <$> p :: ps)) true).
      * cbn [foldl fst snd]. apply IH. lia.
      * destruct (encode_pair (k, x)); [simpl in Hlen; lia|done].
      * apply Cut_app_sep. by apply encode_pair_no.
Qed.

Lemma add_pairs_lookup (ps : list (string * string)) (q : Values) k :
  foldl (fun m kv => Values_Add kv.1 kv.2 m) q ps !! k
  = match (filter (fun kv => kv.1 = k) ps).*2 with
    | [] => q !! k
    | vs => Some (default [] (q !! k) ++ vs)
    end.
Proof.
  revert q. induction ps as [|[k0 x] ps IH]; intros q; [done|].
  cbn [foldl fst snd]. rewrite IH. unfold Values_Add.
  destruct (decide (k0 = k)) as [->|Hne].
  - rewrite filter_cons_True by done. rewrite lookup_insert_eq. cbn [fmap list_fmap snd].
    cbn [default from_option id]. unfold id.
    destruct ((filter (fun kv => kv.1 = k) ps).*2) as [|y vs]; [done|].
    by rewrite <- app_assoc.
  - rewrite filter_cons_False by done. by rewrite lookup_insert_ne.
Qed.

Lemma values_pair_fmap k k0 (vs : list string) :
  (filter (fun kv : string * string => kv.1 = k) (pair k0 <$> vs)).*2
  = if decide (k0 = k) then vs else [].
Proof.
  induction vs as [|x vs IH]; [by destruct (decide (k0 = k))|].
  rewrite fmap_cons. destruct (decide (k0 = k)) as [->|Hne].
  - rewrite filter_cons_True by done. by rewrite fmap_cons, IH.
  - rewrite filter_cons_False by done. by rewrite IH.
Qed.

Lemma values_pairs_over (v : Values) ks k :
  NoDup ks ->
  (filter (fun kv : string * string => kv.1 = k) (pairs_over v ks)).*2
  = if decide (k ∈ ks) then default [] (v !! k) else [].
Proof.
  induction 1 as [|k0 ks Hk0 Hnd IH]; [done|].
  unfold pairs_over. rewrite bind_cons. fold (pairs_over v ks).
  rewrite filter_app, fmap_app, IH, values_pair_fmap.
  destruct (decide (k0 = k)) as [->|Hne].
  - rewrite (decide_False (P := k ∈ ks)) by done.
    rewrite decide_True by (by apply elem_of_cons; left). by rewrite app_nil_r.
  - destruct (decide (k ∈ ks)).
    + by rewrite decide_True by (by apply elem_of_cons; right).
    + rewrite decide_False; [done|]. intros [?|?]%elem_of_cons; congruence.
Qed.

(** The loop of the parser reads an encoded map back. *)
Lemma loop_encode (v : Values) :
  (forall k, v !! k <> Some []) ->
  parseQuery (String.length (Values_Encode v)) ∅ (Values_Encode v) = v.
Proof.
  intros Hne. rewrite Values_Encode_pairs.
  rewrite parseQuery_join by done.
  apply map_eq. intros k. rewrite add_pairs_lookup. unfold Values_pairs.
  rewrite values_pairs_over.
  2:{ rewrite merge_sort_Permutation. apply NoDup_fst_map_to_list. }
  rewrite lookup_empty. specialize (Hne k).
  destruct (v !! k) as [vs|] eqn:Hk.
  - rewrite decide_True.
    + simpl. destruct vs; [done|]. done.
    + rewrite merge_sort_Permutation. apply list_elem_of_fmap.
      exists (k, vs). split; [done|]. by apply elem_of_map_to_list.
  - by destruct (decide _).
Qed.

Lemma Count_app (a b : string) c : Count (a +:+ b) c = Count a c + Count b c.
Proof.
  unfold Count. induction a as [|x a IH]; [done|].
  rewrite String_app_cons. cbn [list_ascii_of_string].
  destruct (decide (x = c)) as [->|Hne].
  - rewrite !filter_cons_True by done. simpl. by rewrite IH.
  - by rewrite !filter_cons_False by done.
Qed.

Lemma Count_none (s : string) c :
  string_forall (fun x => negb (Ascii.eqb x c)) s = true -> Count s c = 0.
Proof.
  unfold Count, string_forall. induction s as [|x s IH]; [done|]. simpl.
  intros [Hx Hs]%andb_true_iff. apply negb_true_iff, Ascii.eqb_neq in Hx.
  rewrite filter_cons_False by done. by apply IH.
Qed.

(** An encoded query has one ampersand less than it has pairs. *)
Lemma Count_join (ps : list (string * string)) :
  Count (join_amp (encode_pair <$> ps)) "&" = pred (List.length ps).
Proof.
  induction ps as [|p ps IH]; [done|].
  destruct ps as [|p' ps].
  - apply Count_none. by apply encode_pair_no.
  - change (join_amp (encode_pair <$> p :: p' :: ps))
      with (encode_pair p +:+ "&" +:+ join_amp (encode_pair <$> p' :: ps)).
    rewrite !Count_app, IH, Count_none by (by apply encode_pair_no).
    reflexivity.
Qed.

Lemma urlParamsWithinMax_pairs (ps : list (string * string)) :
  urlParamsWithinMax (Count (join_amp (encode_pair <$> ps)) "&" + 1)
  = urlParamsWithinMax (List.length ps).
Proof.
  rewrite Count_join. destruct ps as [|p ps]; [done|].
  f_equal. simpl. lia.
Qed.

(** [ParseQuery] on an encoded map: the map itself, unless it has more
    pairs than the parser takes. *)
Lemma parse_encode (v : Values) :
  (forall k, v !! k <> Some []) ->
  ParseQuery (Values_Encode v)
  = if urlParamsWithinMax (List.length (Values_pairs v)) then v else ∅.
Proof.
  intros Hne. unfold ParseQuery. rewrite loop_encode by done.
  by rewrite Values_Encode_pairs, urlParamsWithinMax_pairs.
Qed.

Lemma urlParamsWithinMax_true n :
  urlParamsWithinMax n = true <-> (N.of_nat n <= defaultMaxParams)%N.
Proof. apply N.leb_le. Qed.

Lemma urlParamsWithinMax_false n :
  urlParamsWithinMax n = false <-> (defaultMaxParams < N.of_nat n)%N.
Proof. apply N.leb_gt. Qed.

Lemma occurrences_map_to_list (m : gmap string string) k v :
  occurrences (k, v) (map_to_list m) = if decide (m !! k = Some v) then 1 else 0.
Proof.
  unfold occurrences.
  pose proof (proj1 (NoDup_count_occ (fun x y => decide (x = y)) (map_to_list m))
                (proj1 (NoDup_ListNoDup _) (NoDup_map_to_list m)) (k, v)) as Hle.
  destruct (decide (m !! k = Some v)) as [Hk|Hk].
  - apply elem_of_map_to_list, list_elem_of_In in Hk.
    apply (count_occ_In (fun x y => decide (x = y))) in Hk. lia.
  - apply (count_occ_not_In (fun x y => decide (x = y))).
    intros Hin%list_elem_of_In%elem_of_map_to_list. done.
Qed.

(** The loop adds one pair for every key of the map. *)
Lemma pairs_after_loop (q q0 : Values) (m : gmap string string) :
  (forall k, q !! k = match m !! k with
                      | Some v => Some (default [] (q0 !! k) ++ [v])
                      | None => q0 !! k
                      end) ->
  List.length (Values_pairs q) = List.length (Values_pairs q0) + size m.
Proof.
  intros Hq. rewrite <- (length_map_to_list m), <- length_app.
  apply Permutation_length.
  apply (Permutation_count_occ (fun x y => decide (x = y))). intros [k v].
  fold (occurrences (k, v) (Values_pairs q)).
  fold (occurrences (k, v) (Values_pairs q0 ++ map_to_list m)).
  rewrite occurrences_app, occurrences_map_to_list.
  by apply occurrences_after_loop.
Qed.

(** The parser only ever adds a value under a key: no key of its result
    has an empty list. *)
Lemma parseQuery_no_empty fuel (m : Values) query k :
  (forall k, m !! k <> Some []) ->
  parseQuery fuel m query !! k <> Some [].
Proof.
  revert m query. induction fuel as [|fuel IH]; intros m query Hm; [apply Hm|].
  cbn [parseQuery]. destruct (String.eqb query ""); [apply Hm|].
  destruct (Cut "&" query) as [[key query'] found].
  destruct (Contains key ";"); [by apply IH|].
  destruct (String.eqb key ""); [by apply IH|].
  destruct (Cut "=" key) as [[key' value] found'].
  destruct (QueryUnescape key') as [key''|]; [|by apply IH].
  destruct (QueryUnescape value) as [value'|]; [|by apply IH].
  apply IH. intros k0. unfold Values_Add.
  destruct (decide (key'' = k0)) as [->|Hne'].
  - rewrite lookup_insert_eq. intros [= Heq]. by apply app_nil in Heq as [_ [=]].
  - by rewrite lookup_insert_ne.
Qed.

Lemma ParseQuery_no_empty query k : ParseQuery query !! k <> Some [].
Proof.
  unfold ParseQuery. destruct (urlParamsWithinMax _); [|by rewrite lookup_empty].
  apply parseQuery_no_empty. intros k0. by rewrite lookup_empty.
Qed.

Lemma Cut_le sep (s : string) :
  String.length (Cut sep s).1.2 <= String.length s.
Proof.
  induction s as [|c s IH]; [done|]. simpl.
  destruct (Ascii.eqb c sep); [simpl; lia|].
  destruct (Cut sep s) as [[b a] f]. simpl in *. lia.
Qed.

Lemma Cut_shorter sep (s before after : string) found :
  Cut sep s = (before, after, found) ->
  s <> "" -> String.length after < String.length s.
Proof.
  destruct s as [|c s]; [done|]. simpl. intros Hcut _.
  pose proof (Cut_le sep s) as Hle.
  destruct (Ascii.eqb c sep).
  - injection Hcut as _ <- _. lia.
  - destruct (Cut sep s) as [[b a] f]. injection Hcut as _ <- _. simpl in Hle. lia.
Qed.

(** The length of the query is fuel enough for the loop of the parser:
    more fuel changes nothing. *)
Lemma parseQuery_fuel_enough fuel m query :
  String.length query <= fuel ->
  parseQuery fuel m query = parseQuery (String.length query) m query.
Proof.
  assert (Hstep : forall fuel m query,
    String.length query <= fuel ->
    parseQuery (S fuel) m query = parseQuery fuel m query).
  { clear. induction fuel as [|fuel IH]; intros m query Hlen.
    - destruct query; [done|simpl in Hlen; lia].
    - change (parseQuery (S (S fuel)) m query)
        with (if String.eqb query "" then m
              else
                let '(key, query, _) := Cut "&" query in
                if Contains key ";" then parseQuery (S fuel) m query
                else if String.eqb key "" then parseQuery (S fuel) m query
                else
                  let '(key, value, _) := Cut "=" key in
                  match QueryUnescape key with
                  | None => parseQuery (S fuel) m query
                  | Some key =>
                      match QueryUnescape value with
                      | None => parseQuery (S fuel) m query
                      | Some value => parseQuery (S fuel) (Values_Add key value m) query
                      end
                  end).
      cbn [parseQuery].
      destruct (String.eqb_spec query "") as [|Hne]; [done|].
      destruct (Cut "&" query) as [[key query'] found] eqn:Hcut.
      apply Cut_shorter in Hcut; [|done].
      assert (String.length query' <= fuel) as Hlen' by lia.
      destruct (Contains key ";"); [by apply IH|].
      destruct (String.eqb key ""); [by apply IH|].
      destruct (Cut "=" key) as [[key' value] found'].
      destruct (QueryUnescape key'); [|by apply IH].
      destruct (QueryUnescape value); by apply IH. }
  intros Hlen. induction Hlen as [|fuel Hle IH]; [done|].
  by rewrite Hstep.
Qed.

(** X9: whatever bytes a string holds, its escaped form is read back by
    [QueryUnescape] as the string itself. *)
Theorem QueryUnescape_QueryEscape (s : string) :
  QueryUnescape (QueryEscape s) = Some s.
Proof. apply unescape_escape. Qed.

(** X10: for a [url.Values] in which no key has an empty list of values,
    [ParseQuery] reads back from its [Encode] the map itself when the map
    has at most 10000 pairs, and the empty map when it has more; the loop
    of the parser alone reads the map back whatever its size, with any fuel
    from the length of the encoded string on. *)
Theorem ParseQuery_Encode (v : Values) (fuel : nat) :
  (forall k, v !! k <> Some []) ->
  ((N.of_nat (List.length (Values_pairs v)) <= 10000)%N ->
   ParseQuery (Values_Encode v) = v)
  /\ ((10000 < N.of_nat (List.length (Values_pairs v)))%N ->
      ParseQuery (Values_Encode v) = ∅)
  /\ (String.length (Values_Encode v) <= fuel ->
      parseQuery fuel ∅ (Values_Encode v) = v).
Proof.
  intros Hne. split; [|split].
  - intros Hmax%urlParamsWithinMax_true. by rewrite parse_encode, Hmax.
  - intros Hmax%urlParamsWithinMax_false. by rewrite parse_encode, Hmax.
  - intros Hfuel. rewrite parseQuery_fuel_enough by done. by apply loop_encode.
Qed.

Lemma Values_Add_no_empty k x (v : Values) :
  (forall k', v !! k' <> Some []) ->
  forall k', Values_Add k x v !! k' <> Some [].
Proof.
  intros Hv k'. unfold Values_Add. destruct (decide (k = k')) as [->|Hne].
  - rewrite lookup_insert_eq. intros [= Heq]. by apply app_nil in Heq as [_ [=]].
  - by rewrite lookup_insert_ne.
Qed.

Lemma join_amp_query_bytes (ps : list (string * string)) :
  string_forall query_byte (join_amp (encode_pair <$> ps)) = true.
Proof.
  assert (Hpair : forall kv, string_forall query_byte (encode_pair kv) = true).
  { intros kv. unfold encode_pair. rewrite !string_forall_app.
    assert (Hq : forall s, string_forall query_byte (QueryEscape s) = true).
    { intros s. apply (string_forall_impl escaped_byte); [|apply QueryEscape_escaped].
      intros c Hc. unfold query_byte. by rewrite Hc. }
    by rewrite !Hq. }
  induction ps as [|p ps IH]; [done|].
  destruct ps as [|p' ps]; [apply Hpair|].
  change (join_amp (encode_pair <$> p :: p' :: ps))
    with (encode_pair p +:+ "&" +:+ join_amp (encode_pair <$> p' :: ps)).
  rewrite !string_forall_app, Hpair, IH. done.
Qed.

Lemma pairs_over_singletons (q : Values) (m : gmap string string) ks :
  (forall k, k ∈ ks -> exists v, m !! k = Some v /\ q !! k = Some [v]) ->
  pairs_over q ks = (fun k => (k, default "" (m !! k))) <$> ks.
Proof.
  induction ks as [|k ks IH]; intros Hks; [done|].
  unfold pairs_over. rewrite bind_cons. fold (pairs_over q ks).
  rewrite IH by (intros k' Hk'; apply Hks, elem_of_cons; by right).
  destruct (Hks k) as (v & Hm & Hq); [by apply elem_of_cons; left|].
  by rewrite fmap_cons, Hq, Hm.
Qed.

Lemma sorted_keys_fmap {A B} (f : A -> B) (m : gmap string A) :
  merge_sort String.le (map_to_list (f <$> m)).*1
  = merge_sort String.le (map_to_list m).*1.
Proof.
  rewrite map_to_list_fmap, <- list_fmap_compose. f_equal.
Qed.

(** ** The query string and the failures of request construction *)

Section QueryContract.
Context `{NetLib} `{World}.
Variables (ctx : Context) (url email passwd : string).
Variables (l : loc) (σ : State) (cfg : OptReqParams).
Hypothesis Hcfg : heap σ !! l = Some cfg.

(** The local [url.Values] after the loop, as a map. *)
Lemma sent_query_lookup auth req0 m :
  queryParam cfg = Some m ->
  exists q : Values,
    RawQuery (req_URL (sent_request cfg auth req0)) = Values_Encode q
    /\ forall k, q !! k
                 = match m !! k with
                   | Some v =>
                       Some (default [] (url_ParseQuery (RawQuery (req_URL req0)) !! k)
                               ++ [v])
                   | None => url_ParseQuery (RawQuery (req_URL req0)) !! k
                   end.
Proof using Type.
  intros Hm. unfold sent_request. rewrite Hm. eexists. split; [reflexivity|].
  intros k. apply range_Values_Add_lookup.
Qed.

(** X11: a nil map of query parameters leaves the URL of the request as it
    was parsed; an empty map that is not nil has the query string of the
    URL parsed and written again by [Encode]. *)
Theorem nil_and_empty_query_map auth req0 :
  token_resolved cfg ctx email passwd auth ->
  NewRequestWithContext ctx (httpMethod cfg) url (body cfg) = inl req0 ->
  exists req,
    last (trace (CustomHTTPRequest ctx url email passwd (Some l) σ).2)
    = Some (EvDo req)
    /\ (queryParam cfg = None -> req_URL req = req_URL req0)
    /\ (queryParam cfg = Some ∅ ->
        RawQuery (req_URL req)
        = Values_Encode (url_ParseQuery (RawQuery (req_URL req0)))).
Proof using Hcfg.
  intros Hauth Hnew. exists (sent_request cfg auth req0).
  rewrite (exec_sent ctx url email passwd l σ cfg auth req0) by done. simpl.
  split; [by rewrite !last_app|]. split.
  - intros Hq. unfold sent_request. by rewrite Hq.
  - intros Hq. destruct (sent_query_lookup auth req0 ∅ Hq) as (q & -> & Hlook).
    f_equal. apply map_eq. intros k. by rewrite Hlook, lookup_empty.
Qed.

(** X12: a configured method that is not empty and not an HTTP token is
    refused when the request is built, after the login has been made: the
    caller gets the invalid-method error of the library, and no request is
    sent. *)
Theorem invalid_method_rejected auth :
  token_resolved cfg ctx email passwd auth ->
  httpMethod cfg <> "" ->
  validMethod (httpMethod cfg) = false ->
  CustomHTTPRequest ctx url email passwd (Some l) σ
  = (Done (None,
           Some (errors_New ("net/http: invalid method "
                             +:+ strconv_Quote (httpMethod cfg)))),
     mkState (heap σ)
       (trace σ ++ login_events cfg ctx email passwd
          ++ [EvNewRequest ctx (httpMethod cfg) url (body cfg)])).
Proof using Hcfg.
  intros Hauth Hne Hinvalid.
  apply (exec_newrequest_fails ctx url email passwd l σ cfg Hcfg auth); [done|].
  unfold NewRequestWithContext.
  destruct (String.eqb_spec (httpMethod cfg) "") as [|_]; [done|].
  by rewrite Hinvalid.
Qed.

(** X13: when the URL given has no query of its own, the query string sent
    is the pairs of the map, by increasing key, each escaped and written
    key=value, joined by ampersands. *)
Theorem query_from_map_alone auth req0 m :
  token_resolved cfg ctx email passwd auth ->
  NewRequestWithContext ctx (httpMethod cfg) url (body cfg) = inl req0 ->
  queryParam cfg = Some m ->
  url_ParseQuery (RawQuery (req_URL req0)) = ∅ ->
  exists req,
    last (trace (CustomHTTPRequest ctx url email passwd (Some l) σ).2)
    = Some (EvDo req)
    /\ RawQuery (req_URL req)
       = join_amp
           ((fun k => QueryEscape k +:+ "=" +:+ QueryEscape (default "" (m !! k)))
              <$> merge_sort String.le (map_to_list m).*1).
Proof using Hcfg.
  intros Hauth Hnew Hm Hq0. exists (sent_request cfg auth req0).
  rewrite (exec_sent ctx url email passwd l σ cfg auth req0) by done. simpl.
  split; [by rewrite !last_app|].
  destruct (sent_query_lookup auth req0 m Hm) as (q & -> & Hlook).
  assert (q = (fun v => [v]) <$> m) as ->.
  { apply map_eq. intros k. rewrite Hlook, Hq0, lookup_fmap, lookup_empty.
    by destruct (m !! k). }
  rewrite Values_Encode_pairs. unfold Values_pairs.
  rewrite sorted_keys_fmap.
  rewrite (pairs_over_singletons _ m).
  - by rewrite <- list_fmap_compose.
  - intros k Hk. rewrite merge_sort_Permutation in Hk.
    apply list_elem_of_fmap in Hk as ([k' v] & -> & Hk).
    apply elem_of_map_to_list in Hk. exists v. simpl.
    by rewrite lookup_fmap, Hk.
Qed.

(** X14: whatever bytes the keys and values of the map hold, the query
    string sent holds only letters, digits, [-_.~], [%], [+] and the two
    separators. *)
Theorem sent_query_bytes auth req0 m :
  token_resolved cfg ctx email passwd auth ->
  NewRequestWithContext ctx (httpMethod cfg) url (body cfg) = inl req0 ->
  queryParam cfg = Some m ->
  exists req,
    last (trace (CustomHTTPRequest ctx url email passwd (Some l) σ).2)
    = Some (EvDo req)
    /\ string_forall query_byte (RawQuery (req_URL req)) = true.
Proof using Hcfg.
  intros Hauth Hnew Hm. exists (sent_request cfg auth req0).
  rewrite (exec_sent ctx url email passwd l σ cfg auth req0) by done. simpl.
  split; [by rewrite !last_app|].
  destruct (sent_query_lookup auth req0 m Hm) as (q & -> & _).
  rewrite Values_Encode_pairs. apply join_amp_query_bytes.
Qed.

(** X15: when the query of the URL given and the map hold at most 10000
    pairs together, a server that reads the query string sent with
    [ParseQuery] finds what [URL.Query] found in the URL given, and under
    every key of the map its value added last; when they hold more, it
    finds nothing. *)
Theorem sent_query_parses_back auth req0 m :
  token_resolved cfg ctx email passwd auth ->
  NewRequestWithContext ctx (httpMethod cfg) url (body cfg) = inl req0 ->
  queryParam cfg = Some m ->
  (forall k, url_ParseQuery (RawQuery (req_URL req0)) !! k <> Some []) ->
  exists req,
    last (trace (CustomHTTPRequest ctx url email passwd (Some l) σ).2)
    = Some (EvDo req)
    /\ ((N.of_nat
           (List.length (Values_pairs (url_ParseQuery (RawQuery (req_URL req0))))
            + size m) <= 10000)%N ->
        forall k,
          ParseQuery (RawQuery (req_URL req)) !! k
          = match m !! k with
            | Some v =>
                Some (default [] (url_ParseQuery (RawQuery (req_URL req0)) !! k) ++ [v])
            | None => url_ParseQuery (RawQuery (req_URL req0)) !! k
            end)
    /\ ((10000 < N.of_nat
                   (List.length (Values_pairs (url_ParseQuery (RawQuery (req_URL req0))))
                    + size m))%N ->
        ParseQuery (RawQuery (req_URL req)) = ∅).
Proof using Hcfg.
  intros Hauth Hnew Hm Hq0. exists (sent_request cfg auth req0).
  rewrite (exec_sent ctx url email passwd l σ cfg auth req0) by done. simpl.
  split; [by rewrite !last_app|].
  destruct (sent_query_lookup auth req0 m Hm) as (q & -> & Hlook).
  assert (Hq : forall k, q !! k <> Some []).
  { intros k'. rewrite Hlook. destruct (m !! k'); [|apply Hq0].
    intros [= Heq]. by apply app_nil in Heq as [_ [=]]. }
  rewrite parse_encode by done.
  rewrite (pairs_after_loop q _ m Hlook). split.
  - intros Hmax%urlParamsWithinMax_true. rewrite Hmax. apply Hlook.
  - intros Hmax%urlParamsWithinMax_false. by rewrite Hmax.
Qed.
End QueryContract.

(** X16: a nil context is refused when the request is built, after the
    login has been made with it: the caller gets the nil-context error of
    the library, and no request is sent. *)
Theorem nil_context_rejected `{NetLib} `{World} (url email passwd : string)
    l σ cfg auth :
  heap σ !! l = Some cfg ->
  token_resolved cfg None email passwd auth ->
  validMethod (if String.eqb (httpMethod cfg) "" then "GET" else httpMethod cfg)
  = true ->
  CustomHTTPRequest None url email passwd (Some l) σ
  = (Done (None, Some (errors_New "net/http: nil Context")),
     mkState (heap σ)
       (trace σ ++ login_events cfg None email passwd
          ++ [EvNewRequest None (httpMethod cfg) url (body cfg)])).
Proof.
  intros Hcfg Hauth Hvalid.
  apply (exec_newrequest_fails None url email passwd l σ cfg Hcfg auth); [done|].
  unfold NewRequestWithContext. by rewrite Hvalid.
Qed.

(** X17: [main] stops at its first call: the nil configuration makes the
    executor panic before the login, so the second configuration is never
    built and no call leaves the program. *)
Theorem main_panics `{NetLib} `{World} (σ : State) :
  main σ = (Panic nil_deref, σ).
Proof. reflexivity. Qed.

(** ** These properties at work *)

Example main_second_call_query :
  exists r σ',
    (p <- NewOptReqParams (option_of <$> demo_options) ;;
     CustomHTTPRequest Background "some_url" "email_addr" "email_passwd" p) empty_state
    = (Done r, σ')
    /\ (exists req, last (trace σ') = Some (EvDo req)
                    /\ req_Method req = "POST"
                    /\ RawQuery (req_URL req) = "age=10&name=xyz").
Proof. do 2 eexists. split; [vm_compute; reflexivity|]. eexists. by vm_compute. Qed.

Example empty_map_rewrites_query :
  exists r σ' req,
    @CustomHTTPRequest go_lib demo_world Background
      "https://api.example.com/v1/users?b=2&a=1" "email_addr" "email_passwd"
      (Some demo_loc) empty_query_state = (Done r, σ')
    /\ last (trace σ') = Some (EvDo req)
    /\ RawQuery (req_URL req) = "a=1&b=2".
Proof. do 3 eexists. split; [vm_compute; reflexivity|]. by vm_compute. Qed.

Lemma disjoint_options_commute_witness :
  NewOptReqParams
    (option_of <$> [MWithMethod "POST"]
       ++ MWithBody None :: MWithQueryParam (Some demo_query) :: []) empty_state
  = NewOptReqParams
      (option_of <$> [MWithMethod "POST"]
         ++ MWithQueryParam (Some demo_query) :: MWithBody None :: []) empty_state.
Proof.
  apply (disjoint_options_commute [MWithMethod "POST"] []
           (MWithBody None) (MWithQueryParam (Some demo_query)) empty_state).
  intros []; reflexivity.
Defined.

Lemma shadowed_option_irrelevant_witness :
  NewOptReqParams
    (option_of <$> [] ++ MWithMethod "PUT"
       :: [MWithBody None] ++ MWithTwoValues "text/xml" "POST" :: []) empty_state
  = NewOptReqParams
      (option_of <$> [] ++ [MWithBody None]
         ++ MWithTwoValues "text/xml" "POST" :: []) empty_state.
Proof.
  apply (shadowed_option_irrelevant [] [MWithBody None] []
           (MWithMethod "PUT") (MWithTwoValues "text/xml" "POST") empty_state).
  intros []; simpl; intros Ht; solve [reflexivity | discriminate Ht].
Defined.

Lemma demo_cfg_live : heap demo_state !! demo_loc = Some demo_cfg.
Proof. vm_compute; reflexivity. Defined.

Lemma demo_request_built :
  @NewRequestWithContext demo_lib (Some 0) (httpMethod demo_cfg) "some_url"
    (body demo_cfg)
  = inl (mkRequest 0 "POST" demo_url ∅ None).
Proof. vm_compute; reflexivity. Defined.

Lemma single_attempt_witness :
  exists r evs,
    @CustomHTTPRequest demo_lib demo_world (Some 0) "some_url" "email_addr"
      "email_passwd" (Some demo_loc) demo_state
    = (Done r, mkState (heap demo_state) (trace demo_state ++ evs))
    /\ List.length (filter is_EvLogin evs) = (if useInvalidToken demo_cfg then 0 else 1)
    /\ (useInvalidToken demo_cfg = false ->
        head evs = Some (EvLogin (Some 0) "email_addr" "email_passwd"))
    /\ List.length (filter is_EvDo evs) <= 1
    /\ (is_Some r.1 -> List.length (filter is_EvDo evs) = 1).
Proof.
  exact (@single_attempt demo_lib demo_world (Some 0) "some_url" "email_addr"
           "email_passwd" demo_loc demo_state demo_cfg demo_cfg_live).
Defined.

Lemma success_returns_response_witness :
  exists req,
    (@CustomHTTPRequest demo_lib demo_world (Some 0) "some_url" "email_addr"
       "email_passwd" (Some demo_loc) demo_state).2
    = mkState (heap demo_state)
        (trace demo_state ++ login_events demo_cfg (Some 0) "email_addr" "email_passwd"
           ++ [EvNewRequest (Some 0) (httpMethod demo_cfg) "some_url" (body demo_cfg);
               EvDo req])
    /\ forall res,
        client_Do req = inl res ->
        (@CustomHTTPRequest demo_lib demo_world (Some 0) "some_url" "email_addr"
           "email_passwd" (Some demo_loc) demo_state).1
        = Done (Some res, None).
Proof.
  exact (@success_returns_response demo_lib demo_world (Some 0) "some_url"
           "email_addr" "email_passwd" demo_loc demo_state demo_cfg
           "Bearer tok123" _ demo_cfg_live demo_token_resolved demo_request_built).
Defined.


Lemma ParseQuery_Encode_witness :
  ParseQuery (Values_Encode (Values_Add "name" "x y&z" (Values_Add "age" "10" ∅)))
  = Values_Add "name" "x y&z" (Values_Add "age" "10" ∅)
  /\ parseQuery 40 ∅
       (Values_Encode (Values_Add "name" "x y&z" (Values_Add "age" "10" ∅)))
     = Values_Add "name" "x y&z" (Values_Add "age" "10" ∅).
Proof.
  assert (Hne : forall k,
    Values_Add "name" "x y&z" (Values_Add "age" "10" ∅) !! k <> Some []).
  { do 2 apply Values_Add_no_empty. intros k. by rewrite lookup_empty. }
  split.
  - apply (proj1 (ParseQuery_Encode _ 40 Hne)). vm_compute. discriminate.
  - apply (proj2 (proj2 (ParseQuery_Encode _ 40 Hne))). vm_compute. lia.
Defined.

Lemma empty_query_cfg_live :
  heap empty_query_state !! demo_loc = Some empty_query_cfg.
Proof. vm_compute; reflexivity. Defined.

Lemma nil_and_empty_query_map_witness :
  exists req,
    last (trace (@CustomHTTPRequest go_lib demo_world (Some 0)
                   "https://api.example.com/v1/users?b=2&a=1" "email_addr"
                   "email_passwd" (Some demo_loc) empty_query_state).2)
    = Some (EvDo req)
    /\ (queryParam empty_query_cfg = None -> req_URL req = query_url)
    /\ (queryParam empty_query_cfg = Some ∅ ->
        RawQuery (req_URL req) = Values_Encode (ParseQuery "b=2&a=1")).
Proof.
  apply (@nil_and_empty_query_map go_lib demo_world (Some 0)
           "https://api.example.com/v1/users?b=2&a=1" "email_addr" "email_passwd"
           demo_loc empty_query_state empty_query_cfg empty_query_cfg_live
           "Bearer Invalid Token" (mkRequest 0 "GET" query_url ∅ None)).
  - reflexivity.
  - vm_compute; reflexivity.
Defined.

Lemma invalid_method_rejected_witness :
  @CustomHTTPRequest go_lib demo_world (Some 0) "some_url" "email_addr"
    "email_passwd" (Some demo_loc) bad_method_state
  = (Done (None,
           Some (errors_New ("net/http: invalid method "
                             +:+ @strconv_Quote go_lib "GE T"))),
     mkState (heap bad_method_state)
       (trace bad_method_state
          ++ login_events bad_method_cfg (Some 0) "email_addr" "email_passwd"
          ++ [EvNewRequest (Some 0) "GE T" "some_url" None])).
Proof.
  apply (@invalid_method_rejected go_lib demo_world (Some 0) "some_url"
           "email_addr" "email_passwd" demo_loc bad_method_state bad_method_cfg
           ltac:(vm_compute; reflexivity) "Bearer tok123").
  - exists (mkLoginResp "tok123"). split; reflexivity.
  - discriminate.
  - reflexivity.
Defined.

Lemma query_from_map_alone_witness :
  exists req,
    last (trace (@CustomHTTPRequest demo_lib demo_world (Some 0) "some_url"
                   "email_addr" "email_passwd" (Some demo_loc) demo_state).2)
    = Some (EvDo req)
    /\ RawQuery (req_URL req)
       = join_amp
           ((fun k => QueryEscape k +:+ "=" +:+ QueryEscape (default "" (demo_query !! k)))
              <$> merge_sort String.le (map_to_list demo_query).*1).
Proof.
  apply (@query_from_map_alone demo_lib demo_world (Some 0) "some_url"
           "email_addr" "email_passwd" demo_loc demo_state demo_cfg demo_cfg_live
           "Bearer tok123" (mkRequest 0 "POST" demo_url ∅ None) demo_query).
  - exact demo_token_resolved.
  - exact demo_request_built.
  - reflexivity.
  - reflexivity.
Defined.

Lemma sent_query_bytes_witness :
  exists req,
    last (trace (@CustomHTTPRequest demo_lib demo_world (Some 0) "some_url"
                   "email_addr" "email_passwd" (Some demo_loc) demo_state).2)
    = Some (EvDo req)
    /\ string_forall query_byte (RawQuery (req_URL req)) = true.
Proof.
  apply (@sent_query_bytes demo_lib demo_world (Some 0) "some_url"
           "email_addr" "email_passwd" demo_loc demo_state demo_cfg demo_cfg_live
           "Bearer tok123" (mkRequest 0 "POST" demo_url ∅ None) demo_query).
  - exact demo_token_resolved.
  - exact demo_request_built.
  - reflexivity.
Defined.

Lemma sent_query_parses_back_witness :
  exists req,
    last (trace (@CustomHTTPRequest go_lib demo_world (Some 0)
                   "https://api.example.com/v1/users?b=2&a=1" "email_addr"
                   "email_passwd" (Some demo_loc) demo_state).2)
    = Some (EvDo req)
    /\ forall k,
        ParseQuery (RawQuery (req_URL req)) !! k
        = match demo_query !! k with
          | Some v => Some (default [] (ParseQuery "b=2&a=1" !! k) ++ [v])
          | None => ParseQuery "b=2&a=1" !! k
          end.
Proof.
  destruct (@sent_query_parses_back go_lib demo_world (Some 0)
              "https://api.example.com/v1/users?b=2&a=1" "email_addr" "email_passwd"
              demo_loc demo_state demo_cfg demo_cfg_live
              "Bearer tok123" (mkRequest 0 "POST" query_url ∅ None) demo_query
              demo_token_resolved ltac:(vm_compute; reflexivity) eq_refl
              (fun k => ParseQuery_no_empty _ k))
    as (req & Hlast & Hwithin & _).
  exists req. split; [exact Hlast|].
  apply Hwithin. vm_compute. discriminate.
Defined.

Lemma nil_context_rejected_witness :
  @CustomHTTPRequest demo_lib demo_world None "some_url" "email_addr"
    "email_passwd" (Some demo_loc) invalid_state
  = (Done (None, Some (errors_New "net/http: nil Context")),
     mkState (heap invalid_state)
       (trace invalid_state
          ++ login_events invalid_cfg None "email_addr" "email_passwd"
          ++ [EvNewRequest None "GET" "some_url" None])).
Proof.
  apply (@nil_context_rejected demo_lib demo_world "some_url" "email_addr"
           "email_passwd" demo_loc invalid_state invalid_cfg "Bearer Invalid Token").
  - vm_compute; reflexivity.
  - reflexivity.
  - reflexivity.
Defined.
